(** * Session configuration, WebNN provider and the graph-execution envelope

    A shallow embedding of
      - core/framework/session_options.h
      - core/providers/webnn/webnn_execution_provider.h
      - core/optimizer/group_query_attention_fusion.h
    together with models of the components that consume these
    declarations (topological ordering, memory planner, transformer
    pipeline, fusion glue, executor), written after the design document
    where their code is not part of the sources at hand.

    Part I holds the definitions, Part II the lemmas and theorems. *)

From Stdlib Require Import ZArith List Bool Arith Lia String Ascii Sorted Permutation.
From stdpp Require Import base gmap list.
Import ListNotations.

Local Open Scope Z_scope.

(* ===================================================================== *)
(** * Part I. Definitions                                                *)
(* ===================================================================== *)

(** ** session_options.h: enumerations *)

(** [enum class ExecutionOrder]. An enum class without an explicit
    underlying type is backed by [int], and an object of the type can hold
    any value of it (the [switch] of the printing operator has a [default]
    branch for this reason). The type is therefore the underlying integer
    and the enumerators are named constants. *)
Module ExecutionOrder.
Definition t : Type := Z.
Definition DEFAULT : t := 0.            (* default topological sort *)
Definition PRIORITY_BASED : t := 1.     (* priority-based topological sort *)
Definition MEMORY_EFFICIENT : t := 2.   (* memory-efficient topological sort *)
End ExecutionOrder.

(** An output stream, as far as [operator<<] is concerned: the characters
    written so far. [put os s] is [os << s]: it appends. *)
Definition ostream : Type := string.

Definition put (os : ostream) (s : string) : ostream := (os ++ s)%string.

(** [std::ostream& operator<<(std::ostream& os, const ExecutionOrder& order)] *)
Definition operator_ltlt_ExecutionOrder (os : ostream) (order : ExecutionOrder.t) : ostream :=
  if order =? ExecutionOrder.DEFAULT then put os "DEFAULT"
  else if order =? ExecutionOrder.PRIORITY_BASED then put os "PRIORITY_BASED"
  else if order =? ExecutionOrder.MEMORY_EFFICIENT then put os "MEMORY_EFFICIENT"
  else put os "UNKNOWN".

(** [enum class FreeDimensionOverrideType] *)
Inductive FreeDimensionOverrideType : Type :=
| Invalid
| Denotation
| Name.

(** [enum class ExecutionPriority : int], with the value of each band. *)
Module ExecutionPriority.
Inductive t : Type :=
| GLOBAL_HIGHT
| LOCAL_HIGH
| DEFAULT
| LOCAL_LOW
| GLOBAL_LOW.

Definition value (p : t) : Z :=
  match p with
  | GLOBAL_HIGHT => -100
  | LOCAL_HIGH => -10
  | DEFAULT => 0
  | LOCAL_LOW => 10
  | GLOBAL_LOW => 100
  end.

(** Comparison of two bands by value: [before a b] when [a] is scheduled
    in preference to [b]. *)
Definition before (a b : t) : bool := value a <? value b.
End ExecutionPriority.

(** [struct FreeDimensionOverride] *)
Record FreeDimensionOverride : Type := {
  dim_identifier : string;
  dim_identifier_type : FreeDimensionOverrideType;
  dim_value : Z
}.

(** ** session_options.h: EpContextModelGenerationOptions *)

(** [enum class ActionIfNoCompiledNodes]: [kDontGenerateModel = 0], the
    next two enumerators take 1 and 2. *)
Inductive ActionIfNoCompiledNodes : Type :=
| kDontGenerateModel
| kGenerateModel
| kReturnError.

Definition ActionIfNoCompiledNodes_value (a : ActionIfNoCompiledNodes) : Z :=
  match a with
  | kDontGenerateModel => 0
  | kGenerateModel => 1
  | kReturnError => 2
  end.

(** A raw pointer or an [AllocatorPtr]: [None] is [nullptr]. *)
Definition ptr : Type := option positive.
Definition nullptr : ptr := None.

Record EpContextModelGenerationOptions : Type := {
  enable : bool;
  error_if_output_file_exists : bool;
  action_if_no_compiled_nodes : ActionIfNoCompiledNodes;
  embed_ep_context_in_model : bool;
  output_model_file_path : string;
  output_model_buffer_ptr : ptr;
  output_model_buffer_size_ptr : ptr;
  output_model_buffer_allocator : ptr;
  output_external_initializers_file_path : string;
  output_external_initializer_size_threshold : N
}.

(** [EpContextModelGenerationOptions() = default]: the default member
    initialisers. *)
Definition EpContextModelGenerationOptions_default : EpContextModelGenerationOptions := {|
  enable := false;
  error_if_output_file_exists := true;
  action_if_no_compiled_nodes := kDontGenerateModel;
  embed_ep_context_in_model := false;
  output_model_file_path := EmptyString;
  output_model_buffer_ptr := nullptr;
  output_model_buffer_size_ptr := nullptr;
  output_model_buffer_allocator := nullptr;
  output_external_initializers_file_path := EmptyString;
  output_external_initializer_size_threshold := 0%N
|}.

(** Modelled from the spec: [OrtExecutionProviderDevicePolicy] is declared
    in onnxruntime_c_api.h, which is not among the sources. The design
    document lists the policies prefer-CPU, prefer-accelerator,
    maximize-performance and maximize-efficiency; the source names the
    default. *)
Inductive OrtExecutionProviderDevicePolicy : Type :=
| OrtExecutionProviderDevicePolicy_DEFAULT
| OrtExecutionProviderDevicePolicy_PREFER_CPU
| OrtExecutionProviderDevicePolicy_PREFER_ACCELERATOR
| OrtExecutionProviderDevicePolicy_MAX_PERFORMANCE
| OrtExecutionProviderDevicePolicy_MAX_EFFICIENCY.

(** [struct EpSelectionPolicy]; the delegate is a function object and the
    state an opaque pointer ([{}] and [nullptr] are [None]). *)
Module EpSelectionPolicy.
Record t : Type := {
  enable : bool;
  policy : OrtExecutionProviderDevicePolicy;
  delegate : ptr;
  state : ptr
}.
End EpSelectionPolicy.

(** Modelled from the spec: [ExecutionMode] is declared in
    onnxruntime_c_api.h, which is not among the sources; the design document
    gives the two modes (sequential/parallel). *)
Inductive ExecutionMode : Type :=
| ORT_SEQUENTIAL
| ORT_PARALLEL.

(** Modelled from the spec: [TransformerLevel] is declared in
    core/optimizer/graph_transformer_level.h, which is not among the
    sources; the levels are the priority tiers of passes that the
    optimization level gates. *)
Inductive TransformerLevel : Type :=
| Level_Default
| Level1
| Level2
| Level3.

(** ** session_options.h: SessionOptions *)

(** The free store that holds the [std::atomic_bool] objects created by
    [std::make_shared]. A cell keeps the flag and the use count of the
    control block; a [std::shared_ptr] is the address of a cell. *)
Definition loc : Type := positive.

Record atomic_bool_cell : Type := {
  flag_value : bool;
  use_count : nat
}.

Abbreviation heap := (gmap loc atomic_bool_cell).

(** [struct SessionOptions]: the members with a default member initialiser
    in this header, and those the models below consume. The thread-pool
    parameters, the config map, the initializer maps and the callbacks are
    of types declared elsewhere and are left out. *)
Record SessionOptions : Type := {
  execution_mode : ExecutionMode;
  execution_order : ExecutionOrder.t;
  enable_profiling : bool;
  optimized_model_filepath : string;
  enable_mem_pattern : bool;
  enable_mem_reuse : bool;
  enable_cpu_mem_arena : bool;
  profile_file_prefix : string;
  session_logid : string;
  session_log_severity_level : Z;
  session_log_verbosity_level : Z;
  max_num_graph_transformation_steps : N;
  graph_optimization_level : TransformerLevel;
  free_dimension_overrides : list FreeDimensionOverride;
  use_per_session_threads : bool;
  thread_pool_allow_spinning : bool;
  use_deterministic_compute : bool;
  custom_thread_creation_options : ptr;
  user_logging_param : ptr;
  load_cancellation_flag : loc;
  ep_selection_policy : EpSelectionPolicy.t;
  has_explicit_ep_context_gen_options : bool;
  ep_context_gen_options : EpContextModelGenerationOptions
}.

(** [DEFAULT_USE_PER_SESSION_THREADS]: [false] when
    [defined(__wasm__) && defined(__EMSCRIPTEN_PTHREADS__)], else [true]. *)
Definition DEFAULT_USE_PER_SESSION_THREADS (wasm_pthreads : bool) : bool :=
  if wasm_pthreads then false else true.

(** The default member initialisers, given the address [flag] that
    [std::make_shared<std::atomic_bool>(false)] returned. *)
Definition SessionOptions_init (wasm_pthreads : bool) (flag : loc) : SessionOptions := {|
  execution_mode := ORT_SEQUENTIAL;
  execution_order := ExecutionOrder.DEFAULT;
  enable_profiling := false;
  optimized_model_filepath := EmptyString;
  enable_mem_pattern := true;
  enable_mem_reuse := true;
  enable_cpu_mem_arena := true;
  profile_file_prefix := "onnxruntime_profile_";
  session_logid := EmptyString;
  session_log_severity_level := -1;
  session_log_verbosity_level := 0;
  max_num_graph_transformation_steps := 10%N;
  graph_optimization_level := Level3;
  free_dimension_overrides := [];
  use_per_session_threads := DEFAULT_USE_PER_SESSION_THREADS wasm_pthreads;
  thread_pool_allow_spinning := true;
  use_deterministic_compute := false;
  custom_thread_creation_options := nullptr;
  user_logging_param := nullptr;
  load_cancellation_flag := flag;
  ep_selection_policy :=
    {| EpSelectionPolicy.enable := false;
       EpSelectionPolicy.policy := OrtExecutionProviderDevicePolicy_DEFAULT;
       EpSelectionPolicy.delegate := nullptr;
       EpSelectionPolicy.state := nullptr |};
  has_explicit_ep_context_gen_options := false;
  ep_context_gen_options := EpContextModelGenerationOptions_default
|}.

(** [std::make_shared<std::atomic_bool>(v)]: a new cell at an unused
    address, use count one. *)
Definition make_shared (v : bool) (h : heap) : heap * loc :=
  let l := fresh (dom h) in
  (<[l := {| flag_value := v; use_count := 1 |}]> h, l).

(** Default construction of a [SessionOptions]. *)
Definition SessionOptions_new (wasm_pthreads : bool) (h : heap) : heap * SessionOptions :=
  let '(h', l) := make_shared false h in
  (h', SessionOptions_init wasm_pthreads l).

(** The implicit copy constructor: member-wise copy. Copying the
    [shared_ptr] member copies the address and increments the use count; no
    new [atomic_bool] is made. *)
Definition SessionOptions_copy (s : SessionOptions) (h : heap) : heap * SessionOptions :=
  (alter (fun c => {| flag_value := flag_value c; use_count := S (use_count c) |})
         (load_cancellation_flag s) h,
   s).

(** The implicit destructor, as far as the flag is concerned: the use count
    drops by one and the cell is freed with the last owner. *)
Definition SessionOptions_delete (s : SessionOptions) (h : heap) : heap :=
  match h !! load_cancellation_flag s with
  | Some c =>
      match use_count c with
      | S (S n) =>
          <[load_cancellation_flag s := {| flag_value := flag_value c; use_count := S n |}]> h
      | _ => delete (load_cancellation_flag s) h
      end
  | None => h
  end.

(** [void SetLoadCancellationFlag(bool value) noexcept]:
    [*load_cancellation_flag = value]. *)
Definition SetLoadCancellationFlag (s : SessionOptions) (value : bool) (h : heap) : heap :=
  alter (fun c => {| flag_value := value; use_count := use_count c |})
        (load_cancellation_flag s) h.

(** [bool IsLoadCancellationFlagSet() const noexcept]:
    [return *load_cancellation_flag]. The result is [None] where the
    address holds no object, which the language leaves undefined. *)
Definition IsLoadCancellationFlagSet (s : SessionOptions) (h : heap) : option bool :=
  flag_value <$> h !! load_cancellation_flag s.

(** The flag of [s] is a live object of the store. *)
Definition flag_live (h : heap) (s : SessionOptions) : Prop :=
  is_Some (h !! load_cancellation_flag s).

(** Configuration handles derived from [s]: [s] itself, a copy of a derived
    handle, and a derived handle whose other members were assigned (the
    [shared_ptr] member is left alone). *)
Inductive derived (s : SessionOptions) : SessionOptions -> Prop :=
| derived_self : derived s s
| derived_copy s1 s2 h h' :
    derived s s1 -> SessionOptions_copy s1 h = (h', s2) -> derived s s2
| derived_assign s1 s2 :
    derived s s1 -> load_cancellation_flag s2 = load_cancellation_flag s1 -> derived s s2.

(** ** webnn_execution_provider.h *)

(** Modelled from the spec: [FusionStyle] and [DataLayout] are declared in
    core/framework/execution_provider.h, which is not among the sources.
    The design document has two fusion styles: (b) the claimed nodes are
    replaced by one opaque fused node ([Function]) and (a) a filtered view
    of the original graph is handed to the provider
    ([FilteredGraphViewer]). *)
Module FusionStyle.
Inductive t : Type :=
| Function
| FilteredGraphViewer.
End FusionStyle.

(** Modelled from the spec: [DataLayout], the preferred data layout of a
    provider, is declared outside the sources as well. *)
Inductive DataLayout : Type :=
| NCHW
| NHWC.

(** Modelled from the spec: [WebnnDeviceType] is declared in
    core/providers/webnn/builders/helper.h, which is not among the
    sources. *)
Inductive WebnnDeviceType : Type :=
| WebnnDeviceType_CPU
| WebnnDeviceType_GPU
| WebnnDeviceType_NPU.

(** Modelled from the spec: the part of the [IExecutionProvider] interface
    (core/framework/execution_provider.h, not among the sources) that the
    partitioner, the fusion glue and the executor consume: preferred data
    layout, fusion style and the concurrent-invocation support flag. *)
Class IExecutionProvider (EP : Type) : Type := {
  GetPreferredLayout : EP -> DataLayout;
  GetFusionStyle : EP -> FusionStyle.t;
  ConcurrentRunSupported : EP -> bool
}.

(** [class WebNNExecutionProvider : public IExecutionProvider]: the data
    members that are plain values. The JavaScript handles and the model
    cache do not take part in the overrides below. *)
Record WebNNExecutionProvider : Type := {
  preferred_layout_ : DataLayout;
  wnn_device_type_ : WebnnDeviceType;
  models_ : list string
}.

(** The overrides defined in the header:
    [GetPreferredLayout() const override { return preferred_layout_; }]
    [GetFusionStyle() const override { return FusionStyle::FilteredGraphViewer; }]
    [ConcurrentRunSupported() const override { return false; }] *)
#[export] Instance WebNNExecutionProvider_IExecutionProvider :
  IExecutionProvider WebNNExecutionProvider := {|
  GetPreferredLayout := fun ep => preferred_layout_ ep;
  GetFusionStyle := fun _ => FusionStyle.FilteredGraphViewer;
  ConcurrentRunSupported := fun _ => false
|}.

Local Close Scope Z_scope.

(** ** Graph IR *)

(** The graph (core/graph/graph.h) is not among the sources; this section
    follows the design document. A node is identified by its index, a value
    (a named edge) by its name. *)
Abbreviation NodeIndex := nat.
Abbreviation NodeArg := nat.

(** Modelled from the spec: a node has an operation kind, ordered input and
    output references and attributes. Of the attributes only the priority
    band is kept, the one the ordering policies read. *)
Record Node : Type := {
  op_type : string;
  input_defs : list NodeArg;
  output_defs : list NodeArg;
  priority : ExecutionPriority.t
}.

(** Modelled from the spec: the graph is its nodes, the node of index [n]
    at position [n]; the values are the names the nodes refer to. *)
Definition Graph : Type := list Node.

Definition mem (x : nat) (l : list nat) : bool := existsb (Nat.eqb x) l.

(** Modelled from the spec: the data edges. [data_edge g p c]: some output
    of node [p] is an input of node [c]. *)
Definition data_edge (g : Graph) (p c : NodeIndex) : bool :=
  match nth_error g p, nth_error g c with
  | Some np, Some nc => existsb (fun v => mem v (input_defs nc)) (output_defs np)
  | _, _ => false
  end.

(** ** Topological ordering under the three policies *)

(** The sort itself (Graph/GraphViewer) is not among the sources; this
    section follows the dataflow scheduling of the design document: a unit
    is ready when no predecessor is unmet, and the policy picks among the
    ready units. *)

(** Modelled from the spec: a unit is ready once every producer of one of
    its inputs has run. *)
Definition is_ready (g : Graph) (done : list NodeIndex) (n : NodeIndex) : bool :=
  forallb (fun p => negb (data_edge g p n) || mem p done) (seq 0 (length g)).

(** Modelled from the spec: the values alive once the units of [done] have
    run are those produced by one of them and still awaited by a unit that
    has not run. *)
Definition awaited (g : Graph) (done : list NodeIndex) (v : NodeArg) : bool :=
  existsb (fun c => negb (mem c done) &&
                    match nth_error g c with
                    | Some nc => mem v (input_defs nc)
                    | None => false
                    end)
          (seq 0 (length g)).

(** Modelled from the spec: the number of simultaneously-live values. *)
Definition live_values (g : Graph) (done : list NodeIndex) : nat :=
  length (List.filter (awaited g done)
            (flat_map (fun n => match nth_error g n with
                                | Some nd => output_defs nd
                                | None => []
                                end) done)).

(** The first candidate that no later one beats. *)
Fixpoint best (better : NodeIndex -> NodeIndex -> bool) (cur : NodeIndex)
         (rest : list NodeIndex) : NodeIndex :=
  match rest with
  | [] => cur
  | n :: rest' => if better n cur then best better n rest' else best better cur rest'
  end.

Definition priority_of (g : Graph) (n : NodeIndex) : ExecutionPriority.t :=
  match nth_error g n with
  | Some nd => priority nd
  | None => ExecutionPriority.DEFAULT
  end.

(** Modelled from the spec: tie-breaking among the ready units
    [first :: rest], which are in declaration order:
    - arrival order: the first declared;
    - priority-weighted: the best priority band;
    - memory-efficient: the unit after which the fewest values are alive. *)
Definition pick (order : ExecutionOrder.t) (g : Graph) (done : list NodeIndex)
           (first : NodeIndex) (rest : list NodeIndex) : NodeIndex :=
  if (order =? ExecutionOrder.PRIORITY_BASED)%Z then
    best (fun a b => ExecutionPriority.before (priority_of g a) (priority_of g b)) first rest
  else if (order =? ExecutionOrder.MEMORY_EFFICIENT)%Z then
    best (fun a b => live_values g (done ++ [a]) <? live_values g (done ++ [b])) first rest
  else first.

Definition remove_node (n : NodeIndex) (todo : list NodeIndex) : list NodeIndex :=
  List.filter (fun m => negb (m =? n)) todo.

(** Modelled from the spec: the sort. One unit is taken per step; [None]
    when units remain and none is ready (the graph is not acyclic). *)
Fixpoint sort_from (order : ExecutionOrder.t) (g : Graph) (steps : nat)
         (todo done : list NodeIndex) : option (list NodeIndex) :=
  match todo with
  | [] => Some done
  | _ :: _ =>
      match steps with
      | O => None
      | S steps' =>
          match List.filter (is_ready g done) todo with
          | [] => None
          | r :: rs =>
              let n := pick order g done r rs in
              sort_from order g steps' (remove_node n todo) (done ++ [n])
          end
      end
  end.

(** Modelled from the spec: the execution order of a graph under a policy;
    one step per node suffices. *)
Definition topological_sort (order : ExecutionOrder.t) (g : Graph) : option (list NodeIndex) :=
  sort_from order g (length g) (seq 0 (length g)) [].

(** The execution order under the policy chosen in the session options. *)
Definition execution_plan_order (so : SessionOptions) (g : Graph) : option (list NodeIndex) :=
  topological_sort (execution_order so) g.

(** Modelled from the spec: [order(n)], the position of a unit in an
    order. *)
Fixpoint position (n : NodeIndex) (l : list NodeIndex) : option nat :=
  match l with
  | [] => None
  | m :: l' => if m =? n then Some 0 else option_map S (position n l')
  end.

(** ** Memory planner *)

(** The planner is not among the sources; this section follows the design
    document. *)

(** Modelled from the spec: a value carries its live interval
    [[first_write, last_read]], relative to the final execution order, and
    its size. *)
Record Value : Type := {
  value_id : nat;
  first_write : nat;
  last_read : nat;
  value_size : nat
}.

(** Modelled from the spec: two live intervals overlap when each starts no
    later than the other ends. *)
Definition overlap (a b : Value) : Prop :=
  first_write a <= last_read b /\ first_write b <= last_read a.

(** Modelled from the spec: a slot of the arena, with its offset, its size
    and the end of the interval of the value that occupies it. *)
Record Slot : Type := {
  slot_offset : nat;
  slot_size : nat;
  busy_until : nat
}.

(** Modelled from the spec: the memory pattern, as the slots of the arena
    and, per value, the index of its slot. *)
Record MemoryPattern : Type := {
  slots : list Slot;
  arena_size : nat;
  assignment : gmap nat nat
}.

Definition empty_pattern : MemoryPattern :=
  {| slots := []; arena_size := 0; assignment := ∅ |}.

(** The entry [(slot-offset, size)] of a value. *)
Definition pattern_entry (mp : MemoryPattern) (id : nat) : option (nat * nat) :=
  match assignment mp !! id with
  | Some i =>
      match slots mp !! i with
      | Some sl => Some (slot_offset sl, slot_size sl)
      | None => None
      end
  | None => None
  end.

(** Modelled from the spec: a slot is free for [v] when the interval of
    its occupant has ended before [v] starts, and adequate when [v] fits. *)
Definition slot_free (sl : Slot) (v : Value) : bool :=
  (busy_until sl <? first_write v) && (value_size v <=? slot_size sl).

(** Modelled from the spec: the smallest free slot of adequate size, the
    lowest index among equal sizes. [found] is the best index and size so
    far. *)
Fixpoint smallest_free (v : Value) (sls : list Slot) (i : nat)
         (found : option (nat * nat)) : option (nat * nat) :=
  match sls with
  | [] => found
  | sl :: rest =>
      let found' :=
        if slot_free sl v then
          match found with
          | Some (_, sz) => if slot_size sl <? sz then Some (i, slot_size sl) else found
          | None => Some (i, slot_size sl)
          end
        else found in
      smallest_free v rest (S i) found'
  end.

Definition find_slot (v : Value) (sls : list Slot) : option nat :=
  option_map fst (smallest_free v sls 0 None).

Definition occupy (v : Value) (sl : Slot) : Slot :=
  {| slot_offset := slot_offset sl; slot_size := slot_size sl; busy_until := last_read v |}.

(** Modelled from the spec: placement of one value. The slot found is
    reused, else the arena grows by a new slot. With reuse disabled no slot
    is looked for. *)
Definition place (reuse : bool) (mp : MemoryPattern) (v : Value) : MemoryPattern :=
  match (if reuse then find_slot v (slots mp) else None) with
  | Some i =>
      {| slots := alter (occupy v) i (slots mp);
         arena_size := arena_size mp;
         assignment := <[value_id v := i]> (assignment mp) |}
  | None =>
      {| slots := slots mp ++ [{| slot_offset := arena_size mp;
                                  slot_size := value_size v;
                                  busy_until := last_read v |}];
         arena_size := arena_size mp + value_size v;
         assignment := <[value_id v := length (slots mp)]> (assignment mp) |}
  end.

(** Modelled from the spec: values are processed in interval-start order
    (a stable insertion sort). *)
Fixpoint insert_by_start (v : Value) (l : list Value) : list Value :=
  match l with
  | [] => [v]
  | w :: l' => if first_write v <=? first_write w then v :: l else w :: insert_by_start v l'
  end.

Definition sort_by_start (l : list Value) : list Value :=
  fold_right insert_by_start [] l.

(** Modelled from the spec: the linear scan over the values. *)
Definition plan_values (reuse : bool) (vals : list Value) : MemoryPattern :=
  fold_left (place reuse) (sort_by_start vals) empty_pattern.

(** Modelled from the spec: the plan under the session options; reuse is
    switched by [enable_mem_reuse]. *)
Definition memory_plan (so : SessionOptions) (vals : list Value) : MemoryPattern :=
  plan_values (enable_mem_reuse so) vals.

(** ** Transformer pipeline *)

(** Modelled from the spec: [Status] (core/common/status.h) is not among the
    sources; a call succeeds or fails with a message. *)
Inductive Status : Type :=
| OK
| Error (msg : string).

(** Modelled from the spec: the base class [GraphTransformer]
    (core/optimizer/graph_transformer.h) is not among the sources. A
    transformer has a name, the set of providers whose nodes it may touch
    and the apply-and-report-modified operation
    [Status ApplyImpl(Graph& graph, bool& modified, int graph_level,
    const logging::Logger& logger) const]: the function returns the status,
    the graph as it left it and whether it set [modified]. *)
Record GraphTransformer : Type := {
  name : string;
  compatible_execution_providers : list string;
  ApplyImpl : Graph -> Z -> Status * Graph * bool
}.

(** group_query_attention_fusion.h: the constructor passes the name
    ["GroupQueryAttentionFusion"] and the compatible providers to the base
    class; [ApplyImpl] is declared here and defined elsewhere, so its body
    is a parameter. *)
Definition GroupQueryAttentionFusion (compatible : list string)
           (impl : Graph -> Z -> Status * Graph * bool) : GraphTransformer :=
  {| name := "GroupQueryAttentionFusion";
     compatible_execution_providers := compatible;
     ApplyImpl := impl |}.

(** Modelled from the spec: one application of the full ordered pass list.
    A pass that fails aborts it; the application reports a modification
    when some pass did. *)
Fixpoint apply_passes (passes : list GraphTransformer) (g : Graph) : Status * Graph * bool :=
  match passes with
  | [] => (OK, g, false)
  | t :: ts =>
      match ApplyImpl t g 0%Z with
      | (OK, g1, m1) =>
          match apply_passes ts g1 with
          | (st, g2, m2) => (st, g2, m1 || m2)
          end
      | (Error msg, g1, m1) => (Error msg, g1, m1)
      end
  end.

Record PipelineResult : Type := {
  final_status : Status;
  final_graph : Graph;
  reports : list bool   (* what each application of the list reported *)
}.

(** Modelled from the spec: the pass list is re-applied until an
    application reports no modification or the step budget is exhausted. *)
Fixpoint apply_steps (passes : list GraphTransformer) (steps : nat) (g : Graph) : PipelineResult :=
  match steps with
  | O => {| final_status := OK; final_graph := g; reports := [] |}
  | S steps' =>
      match apply_passes passes g with
      | (OK, g1, true) =>
          let r := apply_steps passes steps' g1 in
          {| final_status := final_status r; final_graph := final_graph r;
             reports := true :: reports r |}
      | (st, g1, m) => {| final_status := st; final_graph := g1; reports := [m] |}
      end
  end.

(** Modelled from the spec: the pipeline under the session options; the
    budget is [max_num_graph_transformation_steps]. *)
Definition ApplyTransformers (so : SessionOptions) (passes : list GraphTransformer)
           (g : Graph) : PipelineResult :=
  apply_steps passes (N.to_nat (max_num_graph_transformation_steps so)) g.

(** The graph after [k] successful applications of the list. *)
Fixpoint after_rounds (passes : list GraphTransformer) (k : nat) (g : Graph) : Graph :=
  match k with
  | O => g
  | S k' => after_rounds passes k' (snd (fst (apply_passes passes g)))
  end.

(** Modelled from the spec: the same loop as a transition system. A state
    is the number of applications made so far and the graph; the loop goes
    round again while budget remains and the application just made reported
    a modification. *)
Inductive loop_step (passes : list GraphTransformer) (budget : nat)
  : nat * Graph -> nat * Graph -> Prop :=
| loop_again k g g1 :
    k < budget ->
    apply_passes passes g = (OK, g1, true) ->
    loop_step passes budget (k, g) (S k, g1).

(** ** Compiler / fusion glue *)

(** Modelled from the spec: a capability claim is the node subset a
    provider accepts, with an optional description of the fused
    replacement. *)
Record CapabilityClaim : Type := {
  claimed_nodes : list NodeIndex;
  fused_op : option string
}.

(** Modelled from the spec: what the owning provider is handed to compile,
    a filtered view of the graph or a fused node with its body. *)
Inductive CompileInput : Type :=
| FilteredView (visible : list NodeIndex)
| FusedNode (fused : Node) (body : list Node).

Definition nodes_at (g : Graph) (ns : list NodeIndex) : list Node :=
  flat_map (fun n => match nth_error g n with Some nd => [nd] | None => [] end) ns.

Definition claimed_in (claim : CapabilityClaim) (n : NodeIndex) : bool :=
  mem n (claimed_nodes claim).

(** Modelled from the spec: the opaque node that stands for a claimed
    region. It reads what the region reads from outside and writes what the
    region writes. *)
Definition fused_node_of (g : Graph) (claim : CapabilityClaim) : Node :=
  let body := nodes_at g (List.filter (claimed_in claim) (seq 0 (length g))) in
  let outs := flat_map output_defs body in
  {| op_type := match fused_op claim with Some op => op | None => "FusedNode" end;
     input_defs := List.filter (fun v => negb (mem v outs)) (flat_map input_defs body);
     output_defs := outs;
     priority := ExecutionPriority.DEFAULT |}.

(** Modelled from the spec: the glue (graph partitioner) is not among the
    sources. Style (a) hands the provider a filtered view and leaves the
    graph as it is; style (b) replaces the claimed nodes by one fused node
    before compilation. The result is the graph afterwards and the input of
    the provider's compile. *)
Definition prepare_compile (style : FusionStyle.t) (g : Graph) (claim : CapabilityClaim)
  : Graph * CompileInput :=
  match style with
  | FusionStyle.FilteredGraphViewer =>
      (g, FilteredView (List.filter (claimed_in claim) (seq 0 (length g))))
  | FusionStyle.Function =>
      let kept := List.filter (fun n => negb (claimed_in claim n)) (seq 0 (length g)) in
      let body := nodes_at g (List.filter (claimed_in claim) (seq 0 (length g))) in
      (nodes_at g kept ++ [fused_node_of g claim], FusedNode (fused_node_of g claim) body)
  end.

(** Modelled from the spec: the glue asks the provider for its fusion
    style. *)
Definition prepare_compile_for {EP : Type} `{IExecutionProvider EP} (ep : EP)
           (g : Graph) (claim : CapabilityClaim) : Graph * CompileInput :=
  prepare_compile (GetFusionStyle ep) g claim.

(** ** Compiled-model emission *)

(** Modelled from the spec: what an emission leaves behind, no model or
    the output model with its payload placement. *)
Inductive Emission : Type :=
| NoModel
| Model (path : string) (embedded : bool).

(** Modelled from the spec: the emission step is not among the sources.
    The enumerators of [ActionIfNoCompiledNodes] are documented in
    session_options.h: [kDontGenerateModel] returns OK and generates no
    model, [kGenerateModel] generates the model even without compiled
    nodes, [kReturnError] returns an error. [compiled] is the number of
    compiled (EPContext) regions and [output_exists] tells whether the
    output path already exists. *)
Definition CreateEpContextModel (opts : EpContextModelGenerationOptions)
           (compiled : nat) (output_exists : bool) : Status * Emission :=
  if negb (enable opts) then (OK, NoModel)
  else
    let emit :=
      if error_if_output_file_exists opts && output_exists
      then (Error "output model file already exists", NoModel)
      else (OK, Model (output_model_file_path opts) (embed_ep_context_in_model opts)) in
    match compiled with
    | O =>
        match action_if_no_compiled_nodes opts with
        | kReturnError => (Error "unable to compile any nodes", NoModel)
        | kDontGenerateModel => (OK, NoModel)
        | kGenerateModel => emit
        end
    | S _ => emit
    end.

(** ** Executor *)

(** The executor is not among the sources; this section follows the design
    document. A provider without concurrent-invocation support has a
    serialization point, a lock that a worker takes before the call and
    gives back after it. *)
Abbreviation ProviderId := nat.

(** Modelled from the spec: a worker thread holds the queue of the units it
    still has to dispatch, each named by the provider it is assigned to,
    and the provider it is inside of, if any. *)
Record Worker : Type := {
  running : option ProviderId;
  queue : list ProviderId
}.

(** Modelled from the spec: the state of the executor, the locks held and
    the workers. *)
Record ExecState : Type := {
  locks : gmap ProviderId nat;   (* provider |-> worker that holds its lock *)
  workers : list Worker
}.

(** Modelled from the spec: the steps of one worker [i], the dispatch of
    the next unit of its queue and the return from the provider.
    [concurrent p] is the concurrent-invocation support flag of provider
    [p]. *)
Inductive exec_step (concurrent : ProviderId -> bool) : ExecState -> ExecState -> Prop :=
| step_call_concurrent st i p q :
    workers st !! i = Some {| running := None; queue := p :: q |} ->
    concurrent p = true ->
    exec_step concurrent st
      {| locks := locks st;
         workers := <[i := {| running := Some p; queue := q |}]> (workers st) |}
| step_call_serialized st i p q :
    workers st !! i = Some {| running := None; queue := p :: q |} ->
    concurrent p = false ->
    locks st !! p = None ->
    exec_step concurrent st
      {| locks := <[p := i]> (locks st);
         workers := <[i := {| running := Some p; queue := q |}]> (workers st) |}
| step_return st i p q :
    workers st !! i = Some {| running := Some p; queue := q |} ->
    exec_step concurrent st
      {| locks := if concurrent p then locks st else delete p (locks st);
         workers := <[i := {| running := None; queue := q |}]> (workers st) |}.

(** Modelled from the spec: the states the workers can reach from [st0],
    in any interleaving. *)
Inductive reachable (concurrent : ProviderId -> bool) (st0 : ExecState) : ExecState -> Prop :=
| reachable_start : reachable concurrent st0 st0
| reachable_step st st' :
    reachable concurrent st0 st -> exec_step concurrent st st' ->
    reachable concurrent st0 st'.

(** Modelled from the spec: the units of a plan dealt to the workers.
    Sequential: the whole order on the calling thread. Parallel: unit [k]
    goes to worker [k mod pool] of the pool. *)
Definition deal (pool : nat) (units : list ProviderId) (w : nat) : list ProviderId :=
  map snd (List.filter (fun ku => (fst ku mod pool =? w)) (combine (seq 0 (length units)) units)).

Definition schedule (mode : ExecutionMode) (pool : nat) (units : list ProviderId) : list Worker :=
  match mode with
  | ORT_SEQUENTIAL => [{| running := None; queue := units |}]
  | ORT_PARALLEL =>
      map (fun w => {| running := None; queue := deal pool units w |}) (seq 0 pool)
  end.

(** Modelled from the spec: several calls in flight, each scheduled by its
    strategy; no lock is held at the start. *)
Definition initial_state (pool : nat) (calls : list (ExecutionMode * list ProviderId)) : ExecState :=
  {| locks := ∅;
     workers := flat_map (fun c => schedule (fst c) pool (snd c)) calls |}.

Definition inside (st : ExecState) (i : nat) (p : ProviderId) : Prop :=
  exists w, workers st !! i = Some w /\ running w = Some p.

(** ** session_options.h: printing of SessionOptions *)

(** The text that the printing operator of [ExecutionOrder] writes. *)
Definition ExecutionOrder_text (order : ExecutionOrder.t) : string :=
  operator_ltlt_ExecutionOrder EmptyString order.

(** The named enumerators of [ExecutionOrder]. *)
Definition ExecutionOrder_named : list ExecutionOrder.t :=
  [ExecutionOrder.DEFAULT; ExecutionOrder.PRIORITY_BASED; ExecutionOrder.MEMORY_EFFICIENT].

(** The insertions that [operator<<] for [SessionOptions] relies on and that
    this header does not define, each given by the text it writes: the
    stream's own insertions of [bool], [int] and [unsigned] (their text
    depends on the formatting state of the stream), the insertions of the
    enums and structs declared elsewhere, the conversion of
    [TransformerLevel] to [int], and the macro
    [ORT_TSTR_CONVERT_TO_PRINTABLE_STRING]. [TP] stands for
    [OrtThreadPoolParams] and [CO] for [ConfigOptions]. *)
Record Inserters (TP CO : Type) : Type := {
  text_bool : bool -> string;
  text_int : Z -> string;
  text_unsigned : N -> string;
  text_ExecutionMode : ExecutionMode -> string;
  text_policy : OrtExecutionProviderDevicePolicy -> string;
  int_of_TransformerLevel : TransformerLevel -> Z;
  ORT_TSTR_CONVERT_TO_PRINTABLE_STRING : string -> string;
  text_OrtThreadPoolParams : TP -> string;
  text_ConfigOptions : CO -> string
}.

Arguments text_bool {TP CO} _ _.
Arguments text_int {TP CO} _ _.
Arguments text_unsigned {TP CO} _ _.
Arguments text_ExecutionMode {TP CO} _ _.
Arguments text_policy {TP CO} _ _.
Arguments int_of_TransformerLevel {TP CO} _ _.
Arguments ORT_TSTR_CONVERT_TO_PRINTABLE_STRING {TP CO} _ _.
Arguments text_OrtThreadPoolParams {TP CO} _ _.
Arguments text_ConfigOptions {TP CO} _ _.

(** The members of [SessionOptions] that the printing operator reads and
    that the record above leaves out, their types being declared
    elsewhere. *)
Record PrintedElsewhere (TP CO : Type) : Type := {
  intra_op_param : TP;
  inter_op_param : TP;
  config_options : CO
}.

Arguments intra_op_param {TP CO} _.
Arguments inter_op_param {TP CO} _.
Arguments config_options {TP CO} _.

(** [std::ostream& operator<<(std::ostream& os, const SessionOptions&
    session_options)]: one insertion after the other, in the order of the
    source. The lines of the source that are commented out
    ([free_dimension_overrides], [initializers_to_share_map], the external
    initializers, [custom_op_libs]) insert nothing. *)
Definition operator_ltlt_SessionOptions {TP CO : Type} (F : Inserters TP CO)
           (os : ostream) (session_options : SessionOptions)
           (more : PrintedElsewhere TP CO) : ostream :=
  let os := put os "Session Options { " in
  let os := put os " execution_mode:" in
  let os := put os (text_ExecutionMode F (execution_mode session_options)) in
  let os := put os " execution_order:" in
  let os := operator_ltlt_ExecutionOrder os (execution_order session_options) in
  let os := put os " enable_profiling:" in
  let os := put os (text_bool F (enable_profiling session_options)) in
  let os := put os " optimized_model_filepath:" in
  let os := put os (ORT_TSTR_CONVERT_TO_PRINTABLE_STRING F
                      (optimized_model_filepath session_options)) in
  let os := put os " enable_mem_pattern:" in
  let os := put os (text_bool F (enable_mem_pattern session_options)) in
  let os := put os " enable_mem_reuse:" in
  let os := put os (text_bool F (enable_mem_reuse session_options)) in
  let os := put os " enable_cpu_mem_arena:" in
  let os := put os (text_bool F (enable_cpu_mem_arena session_options)) in
  let os := put os " profile_file_prefix:" in
  let os := put os (ORT_TSTR_CONVERT_TO_PRINTABLE_STRING F
                      (profile_file_prefix session_options)) in
  let os := put os " session_logid:" in
  let os := put os (session_logid session_options) in
  let os := put os " session_log_severity_level:" in
  let os := put os (text_int F (session_log_severity_level session_options)) in
  let os := put os " session_log_verbosity_level:" in
  let os := put os (text_int F (session_log_verbosity_level session_options)) in
  let os := put os " max_num_graph_transformation_steps:" in
  let os := put os (text_unsigned F (max_num_graph_transformation_steps session_options)) in
  let os := put os " graph_optimization_level:" in
  let os := put os (text_int F (int_of_TransformerLevel F
                                  (graph_optimization_level session_options))) in
  let os := put os " intra_op_param:" in
  let os := put os (text_OrtThreadPoolParams F (intra_op_param more)) in
  let os := put os " inter_op_param:" in
  let os := put os (text_OrtThreadPoolParams F (inter_op_param more)) in
  let os := put os " use_per_session_threads:" in
  let os := put os (text_bool F (use_per_session_threads session_options)) in
  let os := put os " thread_pool_allow_spinning:" in
  let os := put os (text_bool F (thread_pool_allow_spinning session_options)) in
  let os := put os " use_deterministic_compute:" in
  let os := put os (text_bool F (use_deterministic_compute session_options)) in
  let os := put os " ep_selection_policy:" in
  let os := put os (text_policy F (EpSelectionPolicy.policy
                                     (ep_selection_policy session_options))) in
  let os := put os " config_options: { " in
  let os := put os (text_ConfigOptions F (config_options more)) in
  let os := put os " }" in
  let os := put os " }" in
  os.

(** Two [SessionOptions] agree on every member that the printing operator
    reads. *)
Definition same_printed_members (s1 s2 : SessionOptions) : Prop :=
  execution_mode s1 = execution_mode s2 /\
  execution_order s1 = execution_order s2 /\
  enable_profiling s1 = enable_profiling s2 /\
  optimized_model_filepath s1 = optimized_model_filepath s2 /\
  enable_mem_pattern s1 = enable_mem_pattern s2 /\
  enable_mem_reuse s1 = enable_mem_reuse s2 /\
  enable_cpu_mem_arena s1 = enable_cpu_mem_arena s2 /\
  profile_file_prefix s1 = profile_file_prefix s2 /\
  session_logid s1 = session_logid s2 /\
  session_log_severity_level s1 = session_log_severity_level s2 /\
  session_log_verbosity_level s1 = session_log_verbosity_level s2 /\
  max_num_graph_transformation_steps s1 = max_num_graph_transformation_steps s2 /\
  graph_optimization_level s1 = graph_optimization_level s2 /\
  use_per_session_threads s1 = use_per_session_threads s2 /\
  thread_pool_allow_spinning s1 = thread_pool_allow_spinning s2 /\
  use_deterministic_compute s1 = use_deterministic_compute s2 /\
  EpSelectionPolicy.policy (ep_selection_policy s1)
  = EpSelectionPolicy.policy (ep_selection_policy s2).

(** A stream in its initial formatting state writes a [bool] as 1 or 0;
    the other insertions are stand-ins that write a tag. *)
Definition sample_inserters : Inserters unit unit := {|
  text_bool := fun b => (if b then "1" else "0")%string;
  text_int := fun z => (if (z <? 0)%Z then "-" else "+")%string;
  text_unsigned := fun _ => "u"%string;
  text_ExecutionMode :=
    fun m => (match m with ORT_SEQUENTIAL => "0" | ORT_PARALLEL => "1" end)%string;
  text_policy := fun _ => "p"%string;
  int_of_TransformerLevel := fun _ => 0%Z;
  ORT_TSTR_CONVERT_TO_PRINTABLE_STRING := fun s => s;
  text_OrtThreadPoolParams := fun _ => "t"%string;
  text_ConfigOptions := fun _ => "c"%string
|}.

Definition sample_elsewhere : PrintedElsewhere unit unit :=
  {| intra_op_param := tt; inter_op_param := tt; config_options := tt |}.

(** ** Invariants of the models *)

(** An order respects the edges of the graph when each unit of it comes
    after all of its producers. *)
Definition respects (g : Graph) (ord : list NodeIndex) : Prop :=
  forall p c, data_edge g p c = true -> In c ord ->
              exists i j, position p ord = Some i /\ position c ord = Some j /\ i < j.

Definition starts_le (a b : Value) : Prop := first_write a <= first_write b.

(** What holds of the pattern while the planner walks the values in start
    order: [processed] are the values placed so far and no value still to
    come starts before [lo]. *)
Record plan_inv (reuse : bool) (lo : nat) (processed : list Value) (mp : MemoryPattern)
  : Prop := {
  inv_assigned : forall v, In v processed ->
      exists i, assignment mp !! value_id v = Some i /\ i < length (slots mp);
  inv_offsets : forall i j si sj, i < j ->
      slots mp !! i = Some si -> slots mp !! j = Some sj ->
      slot_offset si + slot_size si <= slot_offset sj;
  inv_arena : forall i si, slots mp !! i = Some si ->
      slot_offset si + slot_size si <= arena_size mp;
  inv_fits : forall v i sl, In v processed ->
      assignment mp !! value_id v = Some i -> slots mp !! i = Some sl ->
      value_size v <= slot_size sl;
  inv_ended : forall v i sl, In v processed ->
      assignment mp !! value_id v = Some i -> slots mp !! i = Some sl ->
      last_read v <= busy_until sl \/ last_read v < lo;
  inv_apart : forall v1 v2 i1 i2, In v1 processed -> In v2 processed ->
      value_id v1 <> value_id v2 ->
      overlap v1 v2 \/ reuse = false ->
      assignment mp !! value_id v1 = Some i1 ->
      assignment mp !! value_id v2 = Some i2 ->
      i1 <> i2
}.

(** The lock of a provider without concurrent-invocation support is held by
    whichever worker is inside the provider. *)
Definition lock_inv (concurrent : ProviderId -> bool) (st : ExecState) : Prop :=
  forall i p, inside st i p -> concurrent p = false -> locks st !! p = Some i.

(** ** Sample data *)

(** The values of the chain A -> B -> C run in the order [A, B, C]: the
    output of A is written at position 0 and last read at 1, the output of
    B is written at 1 and last read at 2, the output of C is written at 2;
    all of one size. *)
Definition chain_values : list Value :=
  [ {| value_id := 0; first_write := 0; last_read := 1; value_size := 16 |};
    {| value_id := 1; first_write := 1; last_read := 2; value_size := 16 |};
    {| value_id := 2; first_write := 2; last_read := 2; value_size := 16 |} ].

Definition options_with_reuse (reuse : bool) : SessionOptions :=
  let s := SessionOptions_init false 1%positive in
  {| execution_mode := execution_mode s;
     execution_order := execution_order s;
     enable_profiling := enable_profiling s;
     optimized_model_filepath := optimized_model_filepath s;
     enable_mem_pattern := enable_mem_pattern s;
     enable_mem_reuse := reuse;
     enable_cpu_mem_arena := enable_cpu_mem_arena s;
     profile_file_prefix := profile_file_prefix s;
     session_logid := session_logid s;
     session_log_severity_level := session_log_severity_level s;
     session_log_verbosity_level := session_log_verbosity_level s;
     max_num_graph_transformation_steps := max_num_graph_transformation_steps s;
     graph_optimization_level := graph_optimization_level s;
     free_dimension_overrides := free_dimension_overrides s;
     use_per_session_threads := use_per_session_threads s;
     thread_pool_allow_spinning := thread_pool_allow_spinning s;
     use_deterministic_compute := use_deterministic_compute s;
     custom_thread_creation_options := custom_thread_creation_options s;
     user_logging_param := user_logging_param s;
     load_cancellation_flag := load_cancellation_flag s;
     ep_selection_policy := ep_selection_policy s;
     has_explicit_ep_context_gen_options := has_explicit_ep_context_gen_options s;
     ep_context_gen_options := ep_context_gen_options s |}.

(** A graph with a fork, a join and a free-standing pair of units; unit 4
    is in the global-high band. *)
Definition sample_graph : Graph :=
  [ {| op_type := "A"; input_defs := []; output_defs := [10];
       priority := ExecutionPriority.DEFAULT |};
    {| op_type := "B"; input_defs := [10]; output_defs := [11];
       priority := ExecutionPriority.LOCAL_LOW |};
    {| op_type := "C"; input_defs := [10]; output_defs := [12];
       priority := ExecutionPriority.LOCAL_HIGH |};
    {| op_type := "D"; input_defs := [11; 12]; output_defs := [13];
       priority := ExecutionPriority.DEFAULT |};
    {| op_type := "E"; input_defs := []; output_defs := [14];
       priority := ExecutionPriority.GLOBAL_HIGHT |};
    {| op_type := "F"; input_defs := [14]; output_defs := [];
       priority := ExecutionPriority.DEFAULT |} ].

Definition sample_webnn : WebNNExecutionProvider :=
  {| preferred_layout_ := NHWC; wnn_device_type_ := WebnnDeviceType_GPU; models_ := [] |}.

(** Two calls in flight, one sequential and one parallel, every unit
    assigned to provider 0. *)
Definition sample_calls : list (ExecutionMode * list ProviderId) :=
  [ (ORT_SEQUENTIAL, [0; 0]); (ORT_PARALLEL, [0; 0; 0]) ].

(* ===================================================================== *)
(** * Part II. Properties                                                *)
(* ===================================================================== *)

(** ** Printing of the execution order *)

Lemma put_app (os : ostream) (s : string) : put os s = (os ++ s)%string.
Proof. reflexivity. Qed.

(** C10. The printing operator of [ExecutionOrder] is total: the three
    named enumerators print as "DEFAULT", "PRIORITY_BASED" and
    "MEMORY_EFFICIENT", every other value prints as "UNKNOWN", and in each
    case the result is the stream that was passed in, with that text
    appended. *)
Theorem operator_ltlt_ExecutionOrder_total (os : ostream) (order : ExecutionOrder.t) :
  operator_ltlt_ExecutionOrder os ExecutionOrder.DEFAULT = (os ++ "DEFAULT")%string /\
  operator_ltlt_ExecutionOrder os ExecutionOrder.PRIORITY_BASED = (os ++ "PRIORITY_BASED")%string /\
  operator_ltlt_ExecutionOrder os ExecutionOrder.MEMORY_EFFICIENT
    = (os ++ "MEMORY_EFFICIENT")%string /\
  (order <> ExecutionOrder.DEFAULT ->
   order <> ExecutionOrder.PRIORITY_BASED ->
   order <> ExecutionOrder.MEMORY_EFFICIENT ->
   operator_ltlt_ExecutionOrder os order = (os ++ "UNKNOWN")%string) /\
  (exists text : string,
      In text ["DEFAULT"; "PRIORITY_BASED"; "MEMORY_EFFICIENT"; "UNKNOWN"]%string /\
      operator_ltlt_ExecutionOrder os order = (os ++ text)%string).
Proof.
  repeat split; try reflexivity.
  - intros H0 H1 H2. unfold operator_ltlt_ExecutionOrder.
    destruct (Z.eqb_spec order ExecutionOrder.DEFAULT); [contradiction|].
    destruct (Z.eqb_spec order ExecutionOrder.PRIORITY_BASED); [contradiction|].
    destruct (Z.eqb_spec order ExecutionOrder.MEMORY_EFFICIENT); [contradiction|].
    reflexivity.
  - unfold operator_ltlt_ExecutionOrder.
    destruct (order =? ExecutionOrder.DEFAULT)%Z;
      [eexists; split; [|reflexivity]; simpl; tauto|].
    destruct (order =? ExecutionOrder.PRIORITY_BASED)%Z;
      [eexists; split; [|reflexivity]; simpl; tauto|].
    destruct (order =? ExecutionOrder.MEMORY_EFFICIENT)%Z;
      eexists; (split; [|reflexivity]); simpl; tauto.
Qed.

(** ** Priority bands *)

Lemma ExecutionPriority_value_inj (a b : ExecutionPriority.t) :
  ExecutionPriority.value a = ExecutionPriority.value b -> a = b.
Proof. destruct a, b; simpl; intros H; try reflexivity; discriminate H. Qed.

Lemma ExecutionPriority_before_lt (a b : ExecutionPriority.t) :
  ExecutionPriority.before a b = true <->
  (ExecutionPriority.value a < ExecutionPriority.value b)%Z.
Proof. unfold ExecutionPriority.before. apply Z.ltb_lt. Qed.

(** The candidate kept is one that no candidate beats, when [better] is a
    strict order whose incomparability is transitive. *)
Lemma best_minimal (better : NodeIndex -> NodeIndex -> bool) :
  (forall a b, better a b = true -> better b a = false) ->
  (forall a b c, better b a = false -> better c b = false -> better c a = false) ->
  forall rest cur x, In x (cur :: rest) -> better x (best better cur rest) = false.
Proof.
  intros Hasym Htrans.
  assert (Hirr : forall a, better a a = false).
  { intros a. destruct (better a a) eqn:E; [apply Hasym in E as E'; congruence | reflexivity]. }
  induction rest as [|n rest IH]; intros cur x Hx; simpl.
  - destruct Hx as [<- | []]. apply Hirr.
  - destruct (better n cur) eqn:E.
    + destruct Hx as [<- | Hx]; [|apply IH; exact Hx].
      apply (Htrans _ n); [apply IH; left; reflexivity | apply Hasym, E].
    + destruct Hx as [<- | [<- | Hx]].
      * apply IH. left; reflexivity.
      * apply (Htrans _ cur); [apply IH; left; reflexivity | exact E].
      * apply IH. right; exact Hx.
Qed.

(** The priority-weighted policy takes a ready unit of the best band: no
    ready unit is in a band before it. *)
Lemma pick_priority_minimal (g : Graph) (done : list NodeIndex) (first : NodeIndex)
      (rest : list NodeIndex) (x : NodeIndex) :
  In x (first :: rest) ->
  ExecutionPriority.before
    (priority_of g x)
    (priority_of g (pick ExecutionOrder.PRIORITY_BASED g done first rest)) = false.
Proof.
  unfold pick. simpl.
  apply (best_minimal
           (fun a b => ExecutionPriority.before (priority_of g a) (priority_of g b)));
    unfold ExecutionPriority.before; intros; rewrite ?Z.ltb_lt, ?Z.ltb_ge in *; lia.
Qed.

(** C7. The five bands are strictly ordered by value from global-high to
    global-low, -100 < -10 < 0 < 10 < 100, a smaller value meaning a
    higher priority, and the comparison of band values is a strict total
    order on the bands: irreflexive, transitive, and any two different
    bands are comparable. As the tie-break of the priority-weighted policy
    it selects a ready unit that no other ready unit comes before. *)
Theorem ExecutionPriority_strict_total_order :
  (ExecutionPriority.value ExecutionPriority.GLOBAL_HIGHT = -100 /\
   ExecutionPriority.value ExecutionPriority.LOCAL_HIGH = -10 /\
   ExecutionPriority.value ExecutionPriority.DEFAULT = 0 /\
   ExecutionPriority.value ExecutionPriority.LOCAL_LOW = 10 /\
   ExecutionPriority.value ExecutionPriority.GLOBAL_LOW = 100)%Z /\
  (ExecutionPriority.before ExecutionPriority.GLOBAL_HIGHT ExecutionPriority.LOCAL_HIGH = true /\
   ExecutionPriority.before ExecutionPriority.LOCAL_HIGH ExecutionPriority.DEFAULT = true /\
   ExecutionPriority.before ExecutionPriority.DEFAULT ExecutionPriority.LOCAL_LOW = true /\
   ExecutionPriority.before ExecutionPriority.LOCAL_LOW ExecutionPriority.GLOBAL_LOW = true) /\
  (forall a, ExecutionPriority.before a a = false) /\
  (forall a b c,
      ExecutionPriority.before a b = true ->
      ExecutionPriority.before b c = true ->
      ExecutionPriority.before a c = true) /\
  (forall a b,
      ExecutionPriority.before a b = true \/ a = b \/ ExecutionPriority.before b a = true) /\
  (forall g done first rest x,
      In x (first :: rest) ->
      ExecutionPriority.before
        (priority_of g x)
        (priority_of g (pick ExecutionOrder.PRIORITY_BASED g done first rest)) = false).
Proof.
  split; [repeat split|].
  split; [repeat split|].
  split; [intros a; unfold ExecutionPriority.before; apply Z.ltb_irrefl|].
  split; [|split; [|intros; apply pick_priority_minimal; assumption]].
  - intros a b c Hab Hbc.
    apply ExecutionPriority_before_lt in Hab, Hbc.
    apply ExecutionPriority_before_lt. lia.
  - intros a b.
    destruct (Z.lt_trichotomy (ExecutionPriority.value a) (ExecutionPriority.value b))
      as [H | [H | H]].
    + left. apply ExecutionPriority_before_lt, H.
    + right; left. apply ExecutionPriority_value_inj, H.
    + right; right. apply ExecutionPriority_before_lt, H.
Qed.

(** ** Default construction *)

Lemma make_shared_fresh (v : bool) (h : heap) : h !! snd (make_shared v h) = None.
Proof.
  unfold make_shared; simpl. apply not_elem_of_dom. apply is_fresh.
Qed.

Lemma make_shared_lookup (v : bool) (h : heap) :
  fst (make_shared v h) !! snd (make_shared v h)
  = Some {| flag_value := v; use_count := 1 |}.
Proof. unfold make_shared; simpl. apply lookup_insert_eq. Qed.

(** C9. A default-constructed [SessionOptions] has its cancellation flag
    unset, sequential execution mode, the default execution order, memory
    pattern, memory reuse and the CPU arena enabled, ten transformation
    steps, optimization level 3, deterministic compute off and no provider
    selection policy enabled. *)
Theorem SessionOptions_new_defaults (wasm_pthreads : bool) (h : heap) :
  let h' := fst (SessionOptions_new wasm_pthreads h) in
  let s := snd (SessionOptions_new wasm_pthreads h) in
  IsLoadCancellationFlagSet s h' = Some false /\
  execution_mode s = ORT_SEQUENTIAL /\
  execution_order s = ExecutionOrder.DEFAULT /\
  enable_mem_pattern s = true /\
  enable_mem_reuse s = true /\
  enable_cpu_mem_arena s = true /\
  max_num_graph_transformation_steps s = 10%N /\
  graph_optimization_level s = Level3 /\
  use_deterministic_compute s = false /\
  EpSelectionPolicy.enable (ep_selection_policy s) = false.
Proof.
  unfold SessionOptions_new.
  pose proof (make_shared_lookup false h) as Hl.
  destruct (make_shared false h) as [h1 l] eqn:E. simpl in *.
  unfold IsLoadCancellationFlagSet; simpl. rewrite Hl.
  repeat split.
Qed.

(** ** Compiled-model emission *)

(** C8. With the default options the action for a compilation without
    compiled regions is [kDontGenerateModel] and an existing output path is
    an error. Under that action a compilation with zero compiled regions
    returns OK and emits no model, also once emission is enabled. The two
    other actions emit anyway ([kGenerateModel]) and return an error
    ([kReturnError]). *)
Theorem CreateEpContextModel_no_compiled_nodes :
  action_if_no_compiled_nodes EpContextModelGenerationOptions_default = kDontGenerateModel /\
  ActionIfNoCompiledNodes_value kDontGenerateModel = 0%Z /\
  error_if_output_file_exists EpContextModelGenerationOptions_default = true /\
  (forall a, a = kDontGenerateModel \/ a = kGenerateModel \/ a = kReturnError) /\
  (forall opts output_exists,
      action_if_no_compiled_nodes opts = kDontGenerateModel ->
      CreateEpContextModel opts 0 output_exists = (OK, NoModel)) /\
  (forall opts,
      enable opts = true ->
      action_if_no_compiled_nodes opts = kGenerateModel ->
      CreateEpContextModel opts 0 false
      = (OK, Model (output_model_file_path opts) (embed_ep_context_in_model opts))) /\
  (forall opts output_exists,
      enable opts = true ->
      action_if_no_compiled_nodes opts = kReturnError ->
      exists msg, CreateEpContextModel opts 0 output_exists = (Error msg, NoModel)) /\
  (forall opts compiled,
      enable opts = true ->
      error_if_output_file_exists opts = true ->
      exists msg, CreateEpContextModel opts (S compiled) true = (Error msg, NoModel)).
Proof.
  repeat split.
  - intros a; destruct a; auto.
  - intros opts ex Ha. unfold CreateEpContextModel. rewrite Ha.
    destruct (enable opts); reflexivity.
  - intros opts He Ha. unfold CreateEpContextModel. rewrite He, Ha.
    simpl. rewrite andb_false_r. reflexivity.
  - intros opts ex He Ha. unfold CreateEpContextModel. rewrite He, Ha.
    simpl. eexists; reflexivity.
  - intros opts n He Hx. unfold CreateEpContextModel. rewrite He, Hx.
    simpl. eexists; reflexivity.
Qed.

(** ** Fusion style of the WebNN provider *)

Lemma prepare_compile_filtered_keeps_graph (g : Graph) (claim : CapabilityClaim) :
  fst (prepare_compile FusionStyle.FilteredGraphViewer g claim) = g.
Proof. reflexivity. Qed.

Lemma filter_claimed_in (g : Graph) (claim : CapabilityClaim) (n : NodeIndex) :
  In n (List.filter (claimed_in claim) (seq 0 (length g)))
  <-> n < length g /\ In n (claimed_nodes claim).
Proof.
  rewrite filter_In, in_seq. unfold claimed_in, mem.
  rewrite existsb_exists. split.
  - intros [Hn [x [Hx Hxe]]]. apply Nat.eqb_eq in Hxe. subst x. split; [lia | exact Hx].
  - intros [Hn Hc]. split; [lia|]. exists n. split; [exact Hc | apply Nat.eqb_refl].
Qed.

(** Style (b) does rewrite the graph: the node list ends with the fused
    node. *)
Lemma prepare_compile_function_rewrites (g : Graph) (claim : CapabilityClaim) :
  exists kept,
    fst (prepare_compile FusionStyle.Function g claim) = kept ++ [fused_node_of g claim].
Proof. eexists. reflexivity. Qed.

(** C6. Every instance of the WebNN provider reports the fusion style
    [FilteredGraphViewer]. With it, the glue hands the provider a view of
    the graph that shows exactly the claimed nodes, and the graph itself is
    left as it was: no node is replaced by a fused node. *)
Theorem WebNN_GetFusionStyle (ep : WebNNExecutionProvider) :
  GetFusionStyle ep = FusionStyle.FilteredGraphViewer /\
  GetFusionStyle ep <> FusionStyle.Function /\
  forall (g : Graph) (claim : CapabilityClaim),
    fst (prepare_compile_for ep g claim) = g /\
    exists visible,
      snd (prepare_compile_for ep g claim) = FilteredView visible /\
      forall n, In n visible <-> n < length g /\ In n (claimed_nodes claim).
Proof.
  split; [reflexivity|]. split; [discriminate|].
  intros g claim. split; [reflexivity|].
  eexists. split; [reflexivity|].
  intros n. apply filter_claimed_in.
Qed.

(** ** The shared cancellation flag *)

Lemma derived_shares (s s' : SessionOptions) :
  derived s s' -> load_cancellation_flag s' = load_cancellation_flag s.
Proof.
  induction 1 as [| s1 s2 h h' _ IH Hc | s1 s2 _ IH Hf].
  - reflexivity.
  - unfold SessionOptions_copy in Hc. inversion Hc; subst. exact IH.
  - rewrite Hf. exact IH.
Qed.

Lemma set_then_read_same_flag (h : heap) (s1 s2 : SessionOptions) (v : bool) :
  load_cancellation_flag s1 = load_cancellation_flag s2 ->
  is_Some (h !! load_cancellation_flag s1) ->
  IsLoadCancellationFlagSet s2 (SetLoadCancellationFlag s1 v h) = Some v.
Proof.
  intros Heq [c Hc].
  unfold IsLoadCancellationFlagSet, SetLoadCancellationFlag.
  rewrite <- Heq, lookup_alter_eq, Hc. reflexivity.
Qed.

(** A set through one handle leaves the flags of other sessions alone. *)
Lemma set_other_flag (h : heap) (s1 s2 : SessionOptions) (v : bool) :
  load_cancellation_flag s1 <> load_cancellation_flag s2 ->
  IsLoadCancellationFlagSet s2 (SetLoadCancellationFlag s1 v h)
  = IsLoadCancellationFlagSet s2 h.
Proof.
  intros Hne. unfold IsLoadCancellationFlagSet, SetLoadCancellationFlag.
  rewrite lookup_alter_ne by exact Hne. reflexivity.
Qed.

(** The flag of a new [SessionOptions] is not the flag of any live one. *)
Lemma SessionOptions_new_independent (w : bool) (h : heap) (s : SessionOptions) :
  flag_live h s ->
  load_cancellation_flag (snd (SessionOptions_new w h)) <> load_cancellation_flag s.
Proof.
  intros [c Hc] Heq. unfold SessionOptions_new in Heq.
  pose proof (make_shared_fresh false h) as Hf.
  destruct (make_shared false h) as [h1 l]. simpl in *. subst l. congruence.
Qed.

Lemma SessionOptions_copy_shares (h : heap) (s : SessionOptions) :
  load_cancellation_flag (snd (SessionOptions_copy s h)) = load_cancellation_flag s /\
  dom (fst (SessionOptions_copy s h)) = dom h.
Proof.
  split; [reflexivity|]. unfold SessionOptions_copy; simpl.
  apply set_eq. intros l. rewrite !elem_of_dom.
  destruct (decide (l = load_cancellation_flag s)) as [-> | Hne].
  - rewrite lookup_alter_eq. destruct (h !! load_cancellation_flag s); simpl.
    + split; eauto.
    + split; intros [? ?]; discriminate.
  - rewrite lookup_alter_ne by congruence. reflexivity.
Qed.

(** After the original is destroyed, a copy still reads the flag. *)
Lemma copy_outlives_original (h : heap) (s : SessionOptions) (c : atomic_bool_cell) :
  h !! load_cancellation_flag s = Some c -> 0 < use_count c ->
  let h1 := fst (SessionOptions_copy s h) in
  let s1 := snd (SessionOptions_copy s h) in
  IsLoadCancellationFlagSet s1 (SessionOptions_delete s h1) = Some (flag_value c).
Proof.
  intros Hc Hpos. simpl.
  unfold IsLoadCancellationFlagSet, SessionOptions_delete.
  rewrite lookup_alter_eq, Hc. simpl.
  destruct (use_count c) as [|n] eqn:E; [lia|].
  rewrite lookup_insert_eq. reflexivity.
Qed.

(** C3. Setting the flag through a [SessionOptions] and reading it back
    gives the value set. A copy holds the same flag object (the copy makes
    no new one), so for any two handles derived from one [SessionOptions] a
    set through the first is read through the second. *)
Theorem load_cancellation_flag_shared
        (h : heap) (s s1 s2 : SessionOptions) (v : bool) :
  flag_live h s ->
  derived s s1 ->
  derived s s2 ->
  IsLoadCancellationFlagSet s (SetLoadCancellationFlag s v h) = Some v /\
  IsLoadCancellationFlagSet s2 (SetLoadCancellationFlag s1 v h) = Some v /\
  (let h' := fst (SessionOptions_copy s h) in
   let s' := snd (SessionOptions_copy s h) in
   load_cancellation_flag s' = load_cancellation_flag s /\
   dom h' = dom h /\
   IsLoadCancellationFlagSet s' (SetLoadCancellationFlag s v h') = Some v /\
   IsLoadCancellationFlagSet s (SetLoadCancellationFlag s' v h') = Some v).
Proof.
  intros Hlive H1 H2.
  apply derived_shares in H1, H2.
  split; [apply set_then_read_same_flag; [reflexivity | exact Hlive]|].
  split; [apply set_then_read_same_flag; [congruence | rewrite H1; exact Hlive]|].
  destruct (SessionOptions_copy_shares h s) as [Hs Hd].
  split; [exact Hs|]. split; [exact Hd|].
  assert (Hlive' : is_Some (fst (SessionOptions_copy s h) !! load_cancellation_flag s)).
  { apply elem_of_dom. rewrite Hd. apply elem_of_dom. exact Hlive. }
  split; apply set_then_read_same_flag; auto.
Qed.

(** Freshly constructed options and a copy of them. *)
Lemma load_cancellation_flag_shared_witness :
  let h := fst (SessionOptions_new false ∅) in
  let s := snd (SessionOptions_new false ∅) in
  let s1 := snd (SessionOptions_copy s h) in
  IsLoadCancellationFlagSet s (SetLoadCancellationFlag s true h) = Some true /\
  IsLoadCancellationFlagSet s1 (SetLoadCancellationFlag s true h) = Some true.
Proof.
  pose proof (load_cancellation_flag_shared
                (fst (SessionOptions_new false ∅))
                (snd (SessionOptions_new false ∅))
                (snd (SessionOptions_new false ∅))
                (snd (SessionOptions_copy (snd (SessionOptions_new false ∅))
                                          (fst (SessionOptions_new false ∅))))
                true) as H.
  simpl. split; apply H;
    solve [ eexists; apply make_shared_lookup
          | apply derived_self
          | eapply derived_copy; [apply derived_self | reflexivity] ].
Defined.

(** ** Termination of the transformer pipeline *)

Lemma apply_steps_reports_bound (passes : list GraphTransformer) (steps : nat) (g : Graph) :
  length (reports (apply_steps passes steps g)) <= steps.
Proof.
  revert g. induction steps as [|k IH]; intros g; simpl; [lia|].
  destruct (apply_passes passes g) as [[st g1] m].
  destruct st; [destruct m|]; simpl; [specialize (IH g1) | |]; lia.
Qed.

Lemma apply_steps_final_graph (passes : list GraphTransformer) (steps : nat) (g : Graph) :
  final_graph (apply_steps passes steps g)
  = after_rounds passes (length (reports (apply_steps passes steps g))) g.
Proof.
  revert g. induction steps as [|k IH]; intros g; simpl; [reflexivity|].
  destruct (apply_passes passes g) as [[st g1] m] eqn:E.
  destruct st; [destruct m|]; simpl; rewrite ?E; simpl; auto.
Qed.

(** How the loop ends: on an application that reports no modification, on
    the exhausted budget, or on a pass that failed. *)
Lemma apply_steps_outcome (passes : list GraphTransformer) (steps : nat) (g : Graph) :
  let r := apply_steps passes steps g in
  (final_status r = OK /\ exists k, k < steps /\ reports r = repeat true k ++ [false]) \/
  (final_status r = OK /\ reports r = repeat true steps) \/
  (exists msg k m, k < steps /\ final_status r = Error msg /\ reports r = repeat true k ++ [m]).
Proof.
  revert g. induction steps as [|n IH]; intros g; simpl.
  - right; left. split; reflexivity.
  - destruct (apply_passes passes g) as [[st g1] m].
    destruct st as [|msg]; [destruct m|]; simpl.
    + destruct (IH g1) as [[Hs [k [Hk Hr]]] | [[Hs Hr] | [msg [k [m [Hk [Hs Hr]]]]]]].
      * left. split; [exact Hs|]. exists (S k). split; [lia|]. simpl. rewrite Hr. reflexivity.
      * right; left. split; [exact Hs|]. rewrite Hr. reflexivity.
      * right; right. exists msg, (S k), m. split; [lia|]. split; [exact Hs|].
        simpl. rewrite Hr. reflexivity.
    + left. split; [reflexivity|]. exists 0. split; [lia | reflexivity].
    + right; right. exists msg, 0, m. split; [lia|]. split; reflexivity.
Qed.

(** Two passes that trigger each other for ever: the budget stops them. *)
Lemma apply_steps_always_modified (passes : list GraphTransformer) (steps : nat) (g : Graph) :
  (forall g', exists g1, apply_passes passes g' = (OK, g1, true)) ->
  reports (apply_steps passes steps g) = repeat true steps.
Proof.
  intros Hall. revert g. induction steps as [|n IH]; intros g; simpl; [reflexivity|].
  destruct (Hall g) as [g1 ->]. simpl. rewrite IH. reflexivity.
Qed.

(** Idempotence: once an application of the list reports no modification,
    running the pipeline again from the graph it left reports none. *)
Lemma apply_steps_fixpoint_again (passes : list GraphTransformer) (steps : nat) (g g1 : Graph) :
  apply_passes passes g = (OK, g1, false) ->
  apply_passes passes g1 = (OK, g1, false) ->
  apply_steps passes (S steps) (final_graph (apply_steps passes (S steps) g))
  = {| final_status := OK; final_graph := g1; reports := [false] |}.
Proof. intros H1 H2. simpl. rewrite H1. simpl. rewrite H2. reflexivity. Qed.

(** No run of the loop goes on for ever: the number of applications left
    in the budget decreases with every round. *)
Lemma loop_step_sn (passes : list GraphTransformer) (budget : nat) (s : nat * Graph) :
  sn (loop_step passes budget) s.
Proof.
  apply (well_founded_lt_compat _ (fun s : nat * Graph => budget - fst s)).
  intros x y H. unfold flip in H. destruct H; simpl; lia.
Qed.

(** [apply_steps] runs the loop to a state from which it cannot go on:
    the budget is used up, or the last application reported no modification
    or failed. *)
Lemma apply_steps_runs_loop (passes : list GraphTransformer) (budget : nat) :
  forall steps k0 g,
    k0 + steps = budget ->
    let r := apply_steps passes steps g in
    exists k gk,
      rtc (loop_step passes budget) (k0, g) (k, gk) /\
      nf (loop_step passes budget) (k, gk) /\
      ((k = budget /\ final_status r = OK /\ final_graph r = gk) \/
       (k < budget /\
        exists m, apply_passes passes gk = (final_status r, final_graph r, m) /\
                  (final_status r = OK -> m = false))).
Proof.
  induction steps as [|n IH]; intros k0 g Hk; simpl.
  - exists k0, g. split; [apply rtc_refl|]. split.
    + intros [s' Hs]. inversion Hs; subst. lia.
    + left. split; [lia|]. split; reflexivity.
  - destruct (apply_passes passes g) as [[st g1] m] eqn:E.
    assert (Hstop : (st, m) <> (OK, true) ->
                    nf (loop_step passes budget) (k0, g)).
    { intros Hne [s' Hs]. inversion Hs; subst. apply Hne. congruence. }
    destruct st as [|msg]; [destruct m|]; simpl.
    + destruct (IH (S k0) g1 ltac:(lia)) as [k [gk [Hrun [Hnf Hend]]]].
      exists k, gk. split; [|split; assumption].
      eapply rtc_l; [|exact Hrun]. constructor; [lia | exact E].
    + exists k0, g. split; [apply rtc_refl|]. split; [apply Hstop; congruence|].
      right. split; [lia|]. exists false. rewrite E. split; reflexivity.
    + exists k0, g. split; [apply rtc_refl|]. split; [apply Hstop; congruence|].
      right. split; [lia|]. exists m. rewrite E. split; [reflexivity | discriminate].
Qed.

(** C4. For every graph, pass list and session options the pipeline
    returns, after at most [max_num_graph_transformation_steps]
    applications of the full pass list. Every application but the last
    reported a modification, and the pipeline stops at the first
    application that reports none, or when the budget is used up (or when a
    pass fails, which aborts the load). The graph returned is the one that
    these applications left. As a transition system the loop has no
    infinite run, and the pipeline computes a state in which the loop cannot
    go on. *)
Theorem ApplyTransformers_terminates
        (so : SessionOptions) (passes : list GraphTransformer) (g : Graph) :
  let budget := N.to_nat (max_num_graph_transformation_steps so) in
  let r := ApplyTransformers so passes g in
  length (reports r) <= budget /\
  ((final_status r = OK /\ exists k, k < budget /\ reports r = repeat true k ++ [false]) \/
   (final_status r = OK /\ reports r = repeat true budget) \/
   (exists msg k m,
       k < budget /\ final_status r = Error msg /\ reports r = repeat true k ++ [m])) /\
  final_graph r = after_rounds passes (length (reports r)) g /\
  (forall s, sn (loop_step passes budget) s) /\
  (exists k gk,
      rtc (loop_step passes budget) (0, g) (k, gk) /\
      nf (loop_step passes budget) (k, gk) /\ k <= budget).
Proof.
  unfold ApplyTransformers. simpl.
  split; [apply apply_steps_reports_bound|].
  split; [apply apply_steps_outcome|].
  split; [apply apply_steps_final_graph|].
  split; [apply loop_step_sn|].
  destruct (apply_steps_runs_loop passes
              (N.to_nat (max_num_graph_transformation_steps so))
              (N.to_nat (max_num_graph_transformation_steps so)) 0 g eq_refl)
    as [k [gk [Hrun [Hnf Hend]]]].
  exists k, gk. split; [exact Hrun|]. split; [exact Hnf|].
  destruct Hend as [[-> _] | [Hlt _]]; lia.
Qed.

(** ** Execution order: every producer comes before its consumers *)

Lemma mem_In (x : nat) (l : list nat) : mem x l = true <-> In x l.
Proof.
  unfold mem. rewrite existsb_exists. split.
  - intros [y [Hy He]]. apply Nat.eqb_eq in He. subst y. exact Hy.
  - intros H. exists x. split; [exact H | apply Nat.eqb_refl].
Qed.

Lemma data_edge_lt (g : Graph) (p c : NodeIndex) :
  data_edge g p c = true -> p < length g /\ c < length g.
Proof.
  unfold data_edge. intros H.
  destruct (nth_error g p) eqn:Ep; [|discriminate].
  destruct (nth_error g c) eqn:Ec; [|discriminate].
  split; apply nth_error_Some; congruence.
Qed.

Lemma is_ready_preds (g : Graph) (done : list NodeIndex) (n p : NodeIndex) :
  is_ready g done n = true -> data_edge g p n = true -> In p done.
Proof.
  unfold is_ready. intros Hr He.
  rewrite forallb_forall in Hr.
  destruct (data_edge_lt _ _ _ He) as [Hp _].
  assert (Hin : In p (seq 0 (length g))) by (apply in_seq; lia).
  specialize (Hr p Hin). rewrite He in Hr. simpl in Hr.
  apply mem_In. exact Hr.
Qed.

Lemma remove_node_In (n x : NodeIndex) (todo : list NodeIndex) :
  In x (remove_node n todo) <-> In x todo /\ x <> n.
Proof.
  unfold remove_node. rewrite filter_In.
  rewrite negb_true_iff, Nat.eqb_neq. reflexivity.
Qed.

Lemma remove_node_length (n : NodeIndex) (todo : list NodeIndex) :
  In n todo -> length (remove_node n todo) < length todo.
Proof.
  unfold remove_node. induction todo as [|m todo IH]; simpl; [tauto|].
  intros [-> | Hin].
  - rewrite Nat.eqb_refl. simpl.
    pose proof (List.filter_length_le (fun m => negb (m =? n)) todo). lia.
  - destruct (negb (m =? n)); simpl; specialize (IH Hin); lia.
Qed.

Lemma best_In (better : NodeIndex -> NodeIndex -> bool) (cur : NodeIndex)
      (rest : list NodeIndex) :
  In (best better cur rest) (cur :: rest).
Proof.
  revert cur. induction rest as [|n rest IH]; intros cur; simpl; [auto|].
  destruct (better n cur).
  - right. apply IH.
  - destruct (IH cur) as [H | H]; [left; exact H | right; right; exact H].
Qed.

(** Whatever the policy, the unit picked is one of the ready units. *)
Lemma pick_In (order : ExecutionOrder.t) (g : Graph) (done : list NodeIndex)
      (first : NodeIndex) (rest : list NodeIndex) :
  In (pick order g done first rest) (first :: rest).
Proof.
  unfold pick.
  destruct (order =? ExecutionOrder.PRIORITY_BASED)%Z; [apply best_In|].
  destruct (order =? ExecutionOrder.MEMORY_EFFICIENT)%Z; [apply best_In|].
  left; reflexivity.
Qed.

Lemma pick_ready (order : ExecutionOrder.t) (g : Graph) (todo done : list NodeIndex)
      (r : NodeIndex) (rs : list NodeIndex) :
  List.filter (is_ready g done) todo = r :: rs ->
  In (pick order g done r rs) todo /\ is_ready g done (pick order g done r rs) = true.
Proof.
  intros Hf. apply filter_In. rewrite Hf. apply pick_In.
Qed.

(** Arrival order takes the first declared ready unit. *)
Lemma pick_arrival (g : Graph) (done : list NodeIndex) (first : NodeIndex)
      (rest : list NodeIndex) :
  pick ExecutionOrder.DEFAULT g done first rest = first.
Proof. reflexivity. Qed.

(** The memory-efficient policy takes a ready unit after which the fewest
    values are alive. *)
Lemma pick_memory_minimal (g : Graph) (done : list NodeIndex) (first : NodeIndex)
      (rest : list NodeIndex) (x : NodeIndex) :
  In x (first :: rest) ->
  live_values g (done ++ [pick ExecutionOrder.MEMORY_EFFICIENT g done first rest])
  <= live_values g (done ++ [x]).
Proof.
  intros Hx. unfold pick. simpl. apply Nat.ltb_ge.
  revert x Hx.
  apply (best_minimal
           (fun a b => live_values g (done ++ [a]) <? live_values g (done ++ [b])));
    intros; rewrite ?Nat.ltb_lt, ?Nat.ltb_ge in *; lia.
Qed.

Lemma position_lt (n : NodeIndex) (l : list NodeIndex) (i : nat) :
  position n l = Some i -> i < length l.
Proof.
  revert i. induction l as [|m l IH]; intros i; simpl; [discriminate|].
  destruct (m =? n).
  - intros H; inversion H; lia.
  - destruct (position n l) as [j|]; simpl; [|discriminate].
    intros H; inversion H. specialize (IH j eq_refl). lia.
Qed.

Lemma position_In (n : NodeIndex) (l : list NodeIndex) :
  In n l <-> exists i, position n l = Some i.
Proof.
  induction l as [|m l IH]; simpl.
  - split; [tauto | intros [i H]; discriminate].
  - destruct (Nat.eqb_spec m n) as [-> | Hne].
    + split; eauto.
    + rewrite IH. split.
      * intros [H | [i Hi]]; [contradiction|]. rewrite Hi. simpl. eauto.
      * intros [i Hi]. right. destruct (position n l); [eauto | discriminate].
Qed.

Lemma position_nth (n : NodeIndex) (l : list NodeIndex) (i : nat) :
  position n l = Some i -> nth_error l i = Some n.
Proof.
  revert i. induction l as [|m l IH]; intros i; simpl; [discriminate|].
  destruct (Nat.eqb_spec m n) as [-> | Hne].
  - intros H; inversion H; reflexivity.
  - destruct (position n l) as [j|]; simpl; [|discriminate].
    intros H; inversion H. simpl. apply IH. reflexivity.
Qed.

Lemma position_app_l (n : NodeIndex) (l l' : list NodeIndex) (i : nat) :
  position n l = Some i -> position n (l ++ l') = Some i.
Proof.
  revert i. induction l as [|m l IH]; intros i; simpl; [discriminate|].
  destruct (m =? n); [auto|].
  destruct (position n l) as [j|]; simpl; [|discriminate].
  intros H. rewrite (IH j eq_refl). exact H.
Qed.

Lemma position_app_last (n : NodeIndex) (l : list NodeIndex) :
  ~ In n l -> position n (l ++ [n]) = Some (length l).
Proof.
  induction l as [|m l IH]; simpl; intros Hn.
  - rewrite Nat.eqb_refl. reflexivity.
  - destruct (Nat.eqb_spec m n) as [-> | Hne]; [tauto|].
    rewrite IH by tauto. reflexivity.
Qed.

Lemma respects_snoc (g : Graph) (done : list NodeIndex) (n : NodeIndex) :
  respects g done -> ~ In n done -> is_ready g done n = true ->
  respects g (done ++ [n]).
Proof.
  intros Hres Hn Hr p c He Hc.
  apply in_app_or in Hc. destruct Hc as [Hc | [<- | []]].
  - destruct (Hres p c He Hc) as [i [j [Hi [Hj Hij]]]].
    exists i, j. repeat split; [apply position_app_l .. | ]; assumption.
  - pose proof (is_ready_preds _ _ _ _ Hr He) as Hp.
    apply position_In in Hp. destruct Hp as [i Hi].
    exists i, (length done). split; [apply position_app_l; exact Hi|].
    split; [apply position_app_last; exact Hn|].
    apply position_lt in Hi. exact Hi.
Qed.

Lemma sort_from_respects (order : ExecutionOrder.t) (g : Graph) (steps : nat) :
  forall todo done ord,
    sort_from order g steps todo done = Some ord ->
    respects g done ->
    (forall n, In n todo -> ~ In n done) ->
    respects g ord /\ (forall n, In n todo \/ In n done -> In n ord).
Proof.
  induction steps as [|k IH]; intros todo done ord Hs Hres Hdis.
  - destruct todo; simpl in Hs; [|discriminate].
    inversion Hs; subst. split; [exact Hres|]. intros n [[] | H]; exact H.
  - destruct todo as [|t todo'].
    + simpl in Hs. inversion Hs; subst. split; [exact Hres|]. intros n [[] | H]; exact H.
    + cbn [sort_from] in Hs.
      destruct (List.filter (is_ready g done) (t :: todo')) as [|r rs] eqn:Hf; [discriminate|].
      destruct (pick_ready order g _ done r rs Hf) as [Hin Hready].
      set (n := pick order g done r rs) in *.
      apply IH in Hs.
      * destruct Hs as [Hord Hcov]. split; [exact Hord|].
        intros m Hm. apply Hcov.
        destruct (Nat.eq_dec m n) as [-> | Hne].
        -- right. apply in_or_app. right. left. reflexivity.
        -- destruct Hm as [Hm | Hm].
           ++ left. apply remove_node_In. split; assumption.
           ++ right. apply in_or_app. left. exact Hm.
      * apply respects_snoc; [exact Hres | apply Hdis; exact Hin | exact Hready].
      * intros m Hm Hd. apply remove_node_In in Hm. destruct Hm as [Hm Hne].
        apply in_app_or in Hd. destruct Hd as [Hd | [Hd | []]].
        -- exact (Hdis m Hm Hd).
        -- congruence.
Qed.

(** C1. Under each of the three policies (and for any other value of the
    policy field), in every execution order produced for a graph, the
    producer of every data edge stands at a strictly smaller position than
    its consumer. The policy only selects among the ready units: whatever
    it is, the unit it picks is one of them. *)
Theorem topological_sort_edges_ordered
        (order : ExecutionOrder.t) (g : Graph) (ord : list NodeIndex)
        (producer consumer : NodeIndex) :
  topological_sort order g = Some ord ->
  data_edge g producer consumer = true ->
  (exists i j,
      position producer ord = Some i /\ position consumer ord = Some j /\ i < j) /\
  (forall done todo r rs,
      List.filter (is_ready g done) todo = r :: rs ->
      In (pick order g done r rs) (r :: rs) /\
      In (pick order g done r rs) todo /\
      is_ready g done (pick order g done r rs) = true).
Proof.
  unfold topological_sort. intros Hs He. split.
  - apply sort_from_respects in Hs.
    + destruct Hs as [Hres Hcov]. apply Hres; [exact He|].
      apply Hcov. left. apply in_seq.
      destruct (data_edge_lt _ _ _ He). lia.
    + intros p c _ [].
    + intros n _ [].
  - intros done todo r rs Hf. split; [apply pick_In|].
    apply (pick_ready order g todo done r rs Hf).
Qed.

Example sample_graph_arrival :
  topological_sort ExecutionOrder.DEFAULT sample_graph = Some [0; 1; 2; 3; 4; 5].
Proof. reflexivity. Qed.

Example sample_graph_priority :
  topological_sort ExecutionOrder.PRIORITY_BASED sample_graph = Some [4; 0; 2; 5; 1; 3].
Proof. reflexivity. Qed.

Example sample_graph_memory :
  topological_sort ExecutionOrder.MEMORY_EFFICIENT sample_graph = Some [0; 1; 2; 3; 4; 5].
Proof. reflexivity. Qed.

(** The priority-based order of the sample graph and its edge from unit 2
    to unit 3. *)
Lemma topological_sort_edges_ordered_witness :
  topological_sort ExecutionOrder.PRIORITY_BASED sample_graph = Some [4; 0; 2; 5; 1; 3] /\
  data_edge sample_graph 2 3 = true /\
  exists i j,
    position 2 [4; 0; 2; 5; 1; 3] = Some i /\ position 3 [4; 0; 2; 5; 1; 3] = Some j /\ i < j.
Proof.
  split; [reflexivity|]. split; [reflexivity|].
  apply (proj1 (topological_sort_edges_ordered
                  ExecutionOrder.PRIORITY_BASED sample_graph [4; 0; 2; 5; 1; 3] 2 3
                  eq_refl eq_refl)).
Defined.

(** The chain A -> B -> C in arrival order. *)
Example chain_arrival_order :
  topological_sort ExecutionOrder.DEFAULT
    [ {| op_type := "A"; input_defs := []; output_defs := [0];
         priority := ExecutionPriority.DEFAULT |};
      {| op_type := "B"; input_defs := [0]; output_defs := [1];
         priority := ExecutionPriority.DEFAULT |};
      {| op_type := "C"; input_defs := [1]; output_defs := [2];
         priority := ExecutionPriority.DEFAULT |} ]
  = Some [0; 1; 2].
Proof. reflexivity. Qed.

(** Two ready units, the first with two outputs and the second with one:
    arrival order starts with the first, the memory-efficient policy with
    the second, after which fewer values are alive. *)
Example memory_efficient_differs :
  let g := [ {| op_type := "Y"; input_defs := []; output_defs := [2; 3];
                priority := ExecutionPriority.DEFAULT |};
             {| op_type := "X"; input_defs := []; output_defs := [1];
                priority := ExecutionPriority.DEFAULT |};
             {| op_type := "U"; input_defs := [1]; output_defs := [];
                priority := ExecutionPriority.DEFAULT |};
             {| op_type := "V"; input_defs := [2; 3]; output_defs := [];
                priority := ExecutionPriority.DEFAULT |} ] in
  topological_sort ExecutionOrder.DEFAULT g = Some [0; 1; 2; 3] /\
  topological_sort ExecutionOrder.MEMORY_EFFICIENT g = Some [1; 2; 0; 3].
Proof. split; reflexivity. Qed.

(** A cycle has no order. *)
Example cycle_has_no_order :
  topological_sort ExecutionOrder.DEFAULT
    [ {| op_type := "A"; input_defs := [1]; output_defs := [0];
         priority := ExecutionPriority.DEFAULT |};
      {| op_type := "B"; input_defs := [0]; output_defs := [1];
         priority := ExecutionPriority.DEFAULT |} ]
  = None.
Proof. reflexivity. Qed.

(** The sort does produce an order for every acyclic graph, under every
    policy. Acyclic: the units can be ranked so that each edge goes up. *)
Lemma min_rank_exists (rank : NodeIndex -> nat) (t : NodeIndex) (l : list NodeIndex) :
  exists m, In m (t :: l) /\ forall m', In m' (t :: l) -> rank m <= rank m'.
Proof.
  revert t. induction l as [|a l IH]; intros t.
  - exists t. split; [left; reflexivity|]. intros m' [<- | []]. lia.
  - destruct (IH a) as [m [Hm Hmin]].
    destruct (le_lt_dec (rank t) (rank m)) as [Hle | Hlt].
    + exists t. split; [left; reflexivity|].
      intros m' [<- | Hm']; [lia|]. specialize (Hmin m' Hm'). lia.
    + exists m. split; [right; exact Hm|].
      intros m' [<- | Hm']; [lia|]. apply Hmin, Hm'.
Qed.

Lemma is_ready_intro (g : Graph) (done : list NodeIndex) (n : NodeIndex) :
  (forall p, data_edge g p n = true -> In p done) -> is_ready g done n = true.
Proof.
  intros H. unfold is_ready. apply forallb_forall. intros p _.
  destruct (data_edge g p n) eqn:E; simpl; [|reflexivity].
  apply mem_In, H. exact E.
Qed.

Lemma sort_from_total (order : ExecutionOrder.t) (g : Graph) (rank : NodeIndex -> nat) :
  (forall p c, data_edge g p c = true -> rank p < rank c) ->
  forall steps todo done,
    length todo <= steps ->
    (forall n, n < length g -> In n todo \/ In n done) ->
    exists ord, sort_from order g steps todo done = Some ord.
Proof.
  intros Hrank. induction steps as [|k IH]; intros todo done Hlen Hcov.
  - destruct todo; simpl in *; [eauto | lia].
  - destruct todo as [|t todo']; [simpl; eauto|].
    cbn [sort_from].
    destruct (min_rank_exists rank t todo') as [m [Hm Hmin]].
    assert (Hready : is_ready g done m = true).
    { apply is_ready_intro. intros p He.
      destruct (data_edge_lt _ _ _ He) as [Hp _].
      destruct (Hcov p Hp) as [Hin | Hin]; [|exact Hin].
      specialize (Hmin p Hin). specialize (Hrank p m He). lia. }
    destruct (List.filter (is_ready g done) (t :: todo')) as [|r rs] eqn:Hf.
    + assert (Hx : In m (List.filter (is_ready g done) (t :: todo')))
        by (apply filter_In; split; assumption).
      rewrite Hf in Hx. destruct Hx.
    + destruct (pick_ready order g _ done r rs Hf) as [Hin _].
      apply IH.
      * pose proof (remove_node_length _ _ Hin) as Hl. lia.
      * intros n Hn.
        destruct (Nat.eq_dec n (pick order g done r rs)) as [-> | Hne].
        -- right. apply in_or_app. right. left. reflexivity.
        -- destruct (Hcov n Hn) as [H | H].
           ++ left. apply remove_node_In. split; assumption.
           ++ right. apply in_or_app. left. exact H.
Qed.

Lemma topological_sort_total (order : ExecutionOrder.t) (g : Graph) (rank : NodeIndex -> nat) :
  (forall p c, data_edge g p c = true -> rank p < rank c) ->
  exists ord, topological_sort order g = Some ord.
Proof.
  intros Hrank. unfold topological_sort.
  apply (sort_from_total order g rank Hrank).
  - rewrite length_seq. lia.
  - intros n Hn. left. apply in_seq. lia.
Qed.

(** An order holds every unit of the graph, and only units of it. *)
Lemma sort_from_units (order : ExecutionOrder.t) (g : Graph) (steps : nat) :
  forall todo done ord,
    sort_from order g steps todo done = Some ord ->
    forall n, In n ord <-> In n todo \/ In n done.
Proof.
  induction steps as [|k IH]; intros todo done ord Hs n.
  - destruct todo; simpl in Hs; [|discriminate]. inversion Hs; subst. simpl. tauto.
  - destruct todo as [|t todo'].
    + simpl in Hs. inversion Hs; subst. simpl. tauto.
    + cbn [sort_from] in Hs.
      destruct (List.filter (is_ready g done) (t :: todo')) as [|r rs] eqn:Hf; [discriminate|].
      destruct (pick_ready order g _ done r rs Hf) as [Hin _].
      rewrite (IH _ _ _ Hs n), remove_node_In, in_app_iff. simpl.
      destruct (Nat.eq_dec n (pick order g done r rs)) as [-> | Hne]; [tauto|].
      split; [intros [[H _] | [H | [H | []]]] | intros [H | H]]; auto; congruence.
Qed.

Lemma topological_sort_units (order : ExecutionOrder.t) (g : Graph) (ord : list NodeIndex) :
  topological_sort order g = Some ord ->
  forall n, In n ord <-> n < length g.
Proof.
  intros Hs n. rewrite (sort_from_units _ _ _ _ _ _ Hs n), in_seq. simpl. lia.
Qed.

(** ** Memory plan: overlapping values never share a slot *)

Lemma insert_by_start_perm (v : Value) (l : list Value) :
  Permutation (insert_by_start v l) (v :: l).
Proof.
  induction l as [|w l IH]; simpl; [reflexivity|].
  destruct (first_write v <=? first_write w); [reflexivity|].
  rewrite IH. apply perm_swap.
Qed.

Lemma sort_by_start_perm (l : list Value) : Permutation (sort_by_start l) l.
Proof.
  induction l as [|v l IH]; simpl; [reflexivity|].
  rewrite insert_by_start_perm. apply perm_skip, IH.
Qed.

Lemma insert_by_start_sorted (v : Value) (l : list Value) :
  StronglySorted starts_le l -> StronglySorted starts_le (insert_by_start v l).
Proof.
  induction 1 as [|w l Hs IH Hall]; simpl.
  - constructor; constructor.
  - destruct (Nat.leb_spec (first_write v) (first_write w)) as [Hle | Hgt].
    + constructor; [constructor; assumption|].
      constructor; [exact Hle|].
      eapply List.Forall_impl; [|exact Hall]. unfold starts_le. intros a Ha. lia.
    + constructor; [exact IH|].
      rewrite (insert_by_start_perm v l).
      constructor; [unfold starts_le; lia | exact Hall].
Qed.

Lemma sort_by_start_sorted (l : list Value) : StronglySorted starts_le (sort_by_start l).
Proof.
  induction l as [|v l IH]; simpl; [constructor|].
  apply insert_by_start_sorted, IH.
Qed.

Lemma smallest_free_spec (v : Value) (sls : list Slot) :
  forall k found i sz,
    smallest_free v sls k found = Some (i, sz) ->
    found = Some (i, sz) \/
    exists sl, k <= i /\ sls !! (i - k) = Some sl /\ slot_free sl v = true /\ sz = slot_size sl.
Proof.
  induction sls as [|sl sls IH]; intros k found i sz H; simpl in H; [left; exact H|].
  apply IH in H. destruct H as [H | [sl' [Hk [Hl [Hf Hsz]]]]].
  - destruct (slot_free sl v) eqn:Hfree; [|left; exact H].
    assert (Hhere : exists s0, k <= k /\ (sl :: sls) !! (k - k) = Some s0 /\
                               slot_free s0 v = true /\ slot_size sl = slot_size s0).
    { exists sl. rewrite Nat.sub_diag. auto. }
    destruct found as [[j szj]|].
    + destruct (slot_size sl <? szj); [|left; exact H].
      inversion H; subst. right. exact Hhere.
    + inversion H; subst. right. exact Hhere.
  - right. exists sl'. split; [lia|].
    replace (i - k) with (S (i - S k)) by lia. auto.
Qed.

Lemma find_slot_spec (v : Value) (sls : list Slot) (i : nat) :
  find_slot v sls = Some i ->
  exists sl, sls !! i = Some sl /\ slot_free sl v = true.
Proof.
  unfold find_slot. intros H.
  destruct (smallest_free v sls 0 None) as [[j sz]|] eqn:E; [|discriminate].
  simpl in H. inversion H; subst j.
  apply smallest_free_spec in E. destruct E as [E | [sl [_ [Hl [Hf _]]]]]; [discriminate|].
  rewrite Nat.sub_0_r in Hl. eauto.
Qed.

Lemma smallest_free_le (v : Value) (sls : list Slot) :
  forall k found i sz,
    smallest_free v sls k found = Some (i, sz) ->
    (forall j szj, found = Some (j, szj) -> sz <= szj) /\
    (forall j sl, sls !! j = Some sl -> slot_free sl v = true -> sz <= slot_size sl).
Proof.
  induction sls as [|sl sls IH]; intros k found i sz H; simpl in H.
  - split; [intros j szj Hf; rewrite Hf in H; inversion H; lia|].
    intros j sl' Hl. rewrite lookup_nil in Hl. discriminate.
  - apply IH in H. destruct H as [Hfound Hrest]. split.
    + intros j szj Hf. subst found.
      destruct (slot_free sl v); [|exact (Hfound _ _ eq_refl)].
      destruct (Nat.ltb_spec (slot_size sl) szj) as [Hlt | Hge].
      * specialize (Hfound _ _ eq_refl). lia.
      * exact (Hfound _ _ eq_refl).
    + intros [|j] sl' Hl Hf; simpl in Hl; [|exact (Hrest j sl' Hl Hf)].
      inversion Hl; subst sl'. rewrite Hf in Hfound.
      destruct found as [[j0 sz0]|]; [|exact (Hfound _ _ eq_refl)].
      destruct (Nat.ltb_spec (slot_size sl) sz0) as [Hlt | Hge].
      * exact (Hfound _ _ eq_refl).
      * specialize (Hfound _ _ eq_refl). lia.
Qed.

Lemma smallest_free_none (v : Value) (sls : list Slot) :
  forall k found,
    smallest_free v sls k found = None ->
    found = None /\ forall j sl, sls !! j = Some sl -> slot_free sl v = false.
Proof.
  induction sls as [|sl sls IH]; intros k found H; simpl in H.
  - split; [exact H|]. intros j sl' Hl. rewrite lookup_nil in Hl. discriminate.
  - apply IH in H. destruct H as [Hfound Hrest].
    destruct (slot_free sl v) eqn:Hf.
    + destruct found as [[j0 sz0]|]; [destruct (slot_size sl <? sz0)|]; discriminate.
    + split; [exact Hfound|].
      intros [|j] sl' Hl; simpl in Hl; [congruence | exact (Hrest j sl' Hl)].
Qed.

(** The slot found is the smallest of the free slots of adequate size. *)
Lemma find_slot_smallest (v : Value) (sls : list Slot) (i j : nat) (sl sl' : Slot) :
  find_slot v sls = Some i -> sls !! i = Some sl ->
  sls !! j = Some sl' -> slot_free sl' v = true ->
  slot_size sl <= slot_size sl'.
Proof.
  unfold find_slot. intros H Hi Hj Hf.
  destruct (smallest_free v sls 0 None) as [[i0 sz]|] eqn:E; [|discriminate].
  simpl in H. inversion H; subst i0.
  destruct (smallest_free_spec _ _ _ _ _ _ E) as [? | [s0 [_ [Hl [_ Hsz]]]]]; [discriminate|].
  rewrite Nat.sub_0_r, Hi in Hl. inversion Hl; subst s0. subst sz.
  exact (proj2 (smallest_free_le _ _ _ _ _ _ E) j sl' Hj Hf).
Qed.

(** The arena grows only when no slot is free and adequate. *)
Lemma find_slot_none (v : Value) (sls : list Slot) (j : nat) (sl : Slot) :
  find_slot v sls = None -> sls !! j = Some sl -> slot_free sl v = false.
Proof.
  unfold find_slot. intros H Hj.
  destruct (smallest_free v sls 0 None) as [[i0 sz]|] eqn:E; [discriminate|].
  exact (proj2 (smallest_free_none _ _ _ _ E) j sl Hj).
Qed.

(** The two ways a value is placed. *)
Lemma place_cases (reuse : bool) (mp : MemoryPattern) (w : Value) :
  (slots (place reuse mp w)
   = slots mp ++ [{| slot_offset := arena_size mp; slot_size := value_size w;
                     busy_until := last_read w |}] /\
   arena_size (place reuse mp w) = arena_size mp + value_size w /\
   assignment (place reuse mp w) = <[value_id w := length (slots mp)]> (assignment mp)) \/
  (reuse = true /\
   exists i sl,
     slots mp !! i = Some sl /\ slot_free sl w = true /\
     slots (place reuse mp w) = alter (occupy w) i (slots mp) /\
     arena_size (place reuse mp w) = arena_size mp /\
     assignment (place reuse mp w) = <[value_id w := i]> (assignment mp)).
Proof.
  unfold place. destruct reuse; [|left; auto].
  destruct (find_slot w (slots mp)) as [i|] eqn:E; [|left; auto].
  right. split; [reflexivity|].
  destruct (find_slot_spec _ _ _ E) as [sl [Hl Hf]].
  exists i, sl. auto.
Qed.

Ltac split_in H :=
  apply in_app_or in H; destruct H as [H | [H | []]]; [| subst].

Lemma lookup_assignment_old (a : gmap nat nat) (w v : Value) (i j : nat) :
  value_id v <> value_id w ->
  <[value_id w := j]> a !! value_id v = Some i -> a !! value_id v = Some i.
Proof. intros Hne H. rewrite lookup_insert_ne in H by congruence. exact H. Qed.

Lemma lookup_assignment_new (a : gmap nat nat) (w : Value) (i j : nat) :
  <[value_id w := j]> a !! value_id w = Some i -> i = j.
Proof. rewrite lookup_insert_eq. congruence. Qed.

Lemma assigned_lt (reuse : bool) (lo : nat) (processed : list Value) (mp : MemoryPattern)
      (v : Value) (i : nat) :
  plan_inv reuse lo processed mp -> In v processed ->
  assignment mp !! value_id v = Some i -> i < length (slots mp).
Proof.
  intros Hinv Hv Ha. destruct (inv_assigned _ _ _ _ Hinv v Hv) as [i' [Hi' Hlt]].
  congruence.
Qed.

(** Growing the arena by a slot for [w]. *)
Lemma grow_preserves (reuse : bool) (lo : nat) (processed : list Value)
      (mp mp' : MemoryPattern) (w : Value) :
  plan_inv reuse lo processed mp ->
  lo <= first_write w ->
  (forall v, In v processed -> value_id v <> value_id w) ->
  slots mp' = slots mp ++ [{| slot_offset := arena_size mp; slot_size := value_size w;
                              busy_until := last_read w |}] ->
  arena_size mp' = arena_size mp + value_size w ->
  assignment mp' = <[value_id w := length (slots mp)]> (assignment mp) ->
  plan_inv reuse (first_write w) (processed ++ [w]) mp'.
Proof.
  intros Hinv Hlo Hfresh Hs Har Has.
  constructor.
  - intros v Hv. rewrite Has, Hs, length_app. simpl. split_in Hv.
    + destruct (inv_assigned _ _ _ _ Hinv v Hv) as [i [Hi Hlt]].
      exists i. rewrite lookup_insert_ne by (apply not_eq_sym, Hfresh, Hv).
      split; [exact Hi | lia].
    + exists (length (slots mp)). rewrite lookup_insert_eq. split; [reflexivity | lia].
  - intros i j si sj Hij Hi Hj. rewrite Hs in Hi, Hj.
    apply lookup_snoc_Some in Hi, Hj.
    destruct Hi as [[Hil Hi] | [Hil Hi]], Hj as [[Hjl Hj] | [Hjl Hj]]; try lia.
    + exact (inv_offsets _ _ _ _ Hinv i j si sj Hij Hi Hj).
    + subst sj. simpl. exact (inv_arena _ _ _ _ Hinv i si Hi).
  - intros i si Hi. rewrite Hs in Hi. rewrite Har.
    apply lookup_snoc_Some in Hi. destruct Hi as [[Hil Hi] | [Hil Hi]].
    + pose proof (inv_arena _ _ _ _ Hinv i si Hi). lia.
    + subst si. simpl. lia.
  - intros v i sl Hv Ha Hl. rewrite Has in Ha. rewrite Hs in Hl.
    apply lookup_snoc_Some in Hl. split_in Hv.
    + apply lookup_assignment_old in Ha; [|apply Hfresh, Hv].
      pose proof (assigned_lt _ _ _ _ _ _ Hinv Hv Ha) as Hlt.
      destruct Hl as [[_ Hl] | [Hil _]]; [|lia].
      exact (inv_fits _ _ _ _ Hinv v i sl Hv Ha Hl).
    + apply lookup_assignment_new in Ha. subst i.
      destruct Hl as [[Hil _] | [_ Hl]]; [lia|]. subst sl. simpl. lia.
  - intros v i sl Hv Ha Hl. rewrite Has in Ha. rewrite Hs in Hl.
    apply lookup_snoc_Some in Hl. split_in Hv.
    + apply lookup_assignment_old in Ha; [|apply Hfresh, Hv].
      pose proof (assigned_lt _ _ _ _ _ _ Hinv Hv Ha) as Hlt.
      destruct Hl as [[_ Hl] | [Hil _]]; [|lia].
      destruct (inv_ended _ _ _ _ Hinv v i sl Hv Ha Hl); [left; assumption | right; lia].
    + apply lookup_assignment_new in Ha. subst i.
      destruct Hl as [[Hil _] | [_ Hl]]; [lia|]. subst sl. simpl. left. lia.
  - intros v1 v2 i1 i2 H1 H2 Hne Hov A1 A2. rewrite Has in A1, A2.
    split_in H1; split_in H2.
    + apply lookup_assignment_old in A1; [|apply Hfresh, H1].
      apply lookup_assignment_old in A2; [|apply Hfresh, H2].
      exact (inv_apart _ _ _ _ Hinv v1 v2 i1 i2 H1 H2 Hne Hov A1 A2).
    + apply lookup_assignment_old in A1; [|apply Hfresh, H1].
      apply lookup_assignment_new in A2.
      pose proof (assigned_lt _ _ _ _ _ _ Hinv H1 A1). lia.
    + apply lookup_assignment_new in A1.
      apply lookup_assignment_old in A2; [|apply Hfresh, H2].
      pose proof (assigned_lt _ _ _ _ _ _ Hinv H2 A2). lia.
    + congruence.
Qed.

Lemma lookup_occupied (w : Value) (i j : nat) (l : list Slot) (sj' : Slot) :
  alter (occupy w) i l !! j = Some sj' ->
  exists sj, l !! j = Some sj /\
             slot_offset sj' = slot_offset sj /\ slot_size sj' = slot_size sj /\
             (j <> i -> sj' = sj) /\ (j = i -> busy_until sj' = last_read w).
Proof.
  destruct (Nat.eq_dec i j) as [<- | Hne].
  - rewrite list_lookup_alter_eq. destruct (l !! i) as [sj|]; simpl; [|discriminate].
    intros H; inversion H; subst. exists sj. simpl. repeat split; auto. congruence.
  - rewrite list_lookup_alter_ne by exact Hne. intros H. exists sj'.
    repeat split; auto. congruence.
Qed.

(** Reusing slot [i], whose occupant has ended, for [w]. *)
Lemma reuse_preserves (lo : nat) (processed : list Value)
      (mp mp' : MemoryPattern) (w : Value) (i : nat) (sl : Slot) :
  plan_inv true lo processed mp ->
  lo <= first_write w ->
  (forall v, In v processed -> value_id v <> value_id w) ->
  slots mp !! i = Some sl ->
  slot_free sl w = true ->
  slots mp' = alter (occupy w) i (slots mp) ->
  arena_size mp' = arena_size mp ->
  assignment mp' = <[value_id w := i]> (assignment mp) ->
  plan_inv true (first_write w) (processed ++ [w]) mp'.
Proof.
  intros Hinv Hlo Hfresh Hsl Hfree Hs Har Has.
  unfold slot_free in Hfree. apply andb_true_iff in Hfree.
  destruct Hfree as [Hbusy Hsize]. apply Nat.ltb_lt in Hbusy. apply Nat.leb_le in Hsize.
  assert (Hend : forall v, In v processed -> assignment mp !! value_id v = Some i ->
                           last_read v < first_write w).
  { intros v Hv Ha. destruct (inv_ended _ _ _ _ Hinv v i sl Hv Ha Hsl); lia. }
  constructor.
  - intros v Hv. rewrite Has, Hs, length_alter. split_in Hv.
    + destruct (inv_assigned _ _ _ _ Hinv v Hv) as [k [Hk Hlt]].
      exists k. rewrite lookup_insert_ne by (apply not_eq_sym, Hfresh, Hv). auto.
    + exists i. rewrite lookup_insert_eq. split; [reflexivity|].
      eapply lookup_lt_Some, Hsl.
  - intros a b sa sb Hab Ha Hb. rewrite Hs in Ha, Hb.
    apply lookup_occupied in Ha, Hb.
    destruct Ha as [sa0 [Ha [-> [-> _]]]], Hb as [sb0 [Hb [-> _]]].
    exact (inv_offsets _ _ _ _ Hinv a b sa0 sb0 Hab Ha Hb).
  - intros a sa Ha. rewrite Hs in Ha. rewrite Har.
    apply lookup_occupied in Ha. destruct Ha as [sa0 [Ha [-> [-> _]]]].
    exact (inv_arena _ _ _ _ Hinv a sa0 Ha).
  - intros v k s Hv Ha Hl. rewrite Has in Ha. rewrite Hs in Hl.
    apply lookup_occupied in Hl. destruct Hl as [s0 [Hl [_ [-> _]]]].
    split_in Hv.
    + apply lookup_assignment_old in Ha; [|apply Hfresh, Hv].
      exact (inv_fits _ _ _ _ Hinv v k s0 Hv Ha Hl).
    + apply lookup_assignment_new in Ha. subst k.
      rewrite Hsl in Hl. inversion Hl; subst. exact Hsize.
  - intros v k s Hv Ha Hl. rewrite Has in Ha. rewrite Hs in Hl.
    apply lookup_occupied in Hl. destruct Hl as [s0 [Hl [_ [_ [Hother Hhere]]]]].
    split_in Hv.
    + apply lookup_assignment_old in Ha; [|apply Hfresh, Hv].
      destruct (Nat.eq_dec k i) as [-> | Hne].
      * right. apply Hend; assumption.
      * rewrite (Hother Hne).
        destruct (inv_ended _ _ _ _ Hinv v k s0 Hv Ha Hl); [left; assumption | right; lia].
    + apply lookup_assignment_new in Ha. subst k. left. rewrite Hhere by reflexivity. lia.
  - intros v1 v2 i1 i2 H1 H2 Hne Hov A1 A2. rewrite Has in A1, A2.
    destruct Hov as [[Ho1 Ho2] | Hov]; [|discriminate].
    split_in H1; split_in H2.
    + apply lookup_assignment_old in A1; [|apply Hfresh, H1].
      apply lookup_assignment_old in A2; [|apply Hfresh, H2].
      apply (inv_apart _ _ _ _ Hinv v1 v2 i1 i2 H1 H2 Hne); auto.
      left; split; assumption.
    + apply lookup_assignment_old in A1; [|apply Hfresh, H1].
      apply lookup_assignment_new in A2. subst i2. intros ->.
      specialize (Hend v1 H1 A1). lia.
    + apply lookup_assignment_new in A1. subst i1.
      apply lookup_assignment_old in A2; [|apply Hfresh, H2]. intros <-.
      specialize (Hend v2 H2 A2). lia.
    + congruence.
Qed.

Lemma place_preserves (reuse : bool) (lo : nat) (processed : list Value)
      (mp : MemoryPattern) (w : Value) :
  plan_inv reuse lo processed mp ->
  lo <= first_write w ->
  (forall v, In v processed -> value_id v <> value_id w) ->
  plan_inv reuse (first_write w) (processed ++ [w]) (place reuse mp w).
Proof.
  intros Hinv Hlo Hfresh.
  destruct (place_cases reuse mp w) as [[Hs [Har Has]] | [-> [i [sl [Hl [Hf [Hs [Har Has]]]]]]]].
  - exact (grow_preserves reuse lo processed mp _ w Hinv Hlo Hfresh Hs Har Has).
  - exact (reuse_preserves lo processed mp _ w i sl Hinv Hlo Hfresh Hl Hf Hs Har Has).
Qed.

Lemma plan_inv_empty (reuse : bool) : plan_inv reuse 0 [] empty_pattern.
Proof.
  constructor; simpl; intros; try contradiction;
    match goal with H : [] !! _ = Some _ |- _ => rewrite lookup_nil in H; discriminate end.
Qed.

Lemma fold_place_preserves (reuse : bool) (l : list Value) :
  forall processed mp lo,
    plan_inv reuse lo processed mp ->
    StronglySorted starts_le l ->
    (forall w, In w l -> lo <= first_write w) ->
    List.NoDup (map value_id (processed ++ l)) ->
    exists lo', plan_inv reuse lo' (processed ++ l) (fold_left (place reuse) l mp).
Proof.
  induction l as [|w l IH]; intros processed mp lo Hinv Hsort Hlo Hnd.
  - exists lo. rewrite app_nil_r. exact Hinv.
  - simpl. apply StronglySorted_inv in Hsort. destruct Hsort as [Hsort Hall].
    replace (processed ++ w :: l) with ((processed ++ [w]) ++ l) in *
      by (rewrite <- app_assoc; reflexivity).
    apply (IH (processed ++ [w]) (place reuse mp w) (first_write w)).
    + apply (place_preserves reuse lo); [exact Hinv | apply Hlo; left; reflexivity |].
      intros v Hv Heq.
      rewrite !map_app in Hnd. apply NoDup_app_remove_r in Hnd.
      simpl in Hnd. apply NoDup_remove_2 in Hnd. rewrite app_nil_r in Hnd.
      apply Hnd. rewrite <- Heq. apply in_map, Hv.
    + exact Hsort.
    + intros w' Hw'. rewrite List.Forall_forall in Hall. apply Hall, Hw'.
    + exact Hnd.
Qed.

Lemma NoDup_map_neq {A B : Type} (f : A -> B) (l : list A) (a b : A) :
  List.NoDup (map f l) -> In a l -> In b l -> a <> b -> f a <> f b.
Proof.
  induction l as [|x l IH]; simpl; intros Hnd Ha Hb Hne; [contradiction|].
  inversion Hnd as [|? ? Hx Hnd']; subst.
  destruct Ha as [-> | Ha], Hb as [-> | Hb].
  - congruence.
  - intros Heq. apply Hx. rewrite Heq. apply in_map, Hb.
  - intros Heq. apply Hx. rewrite <- Heq. apply in_map, Ha.
  - apply IH; assumption.
Qed.

Lemma plan_values_inv (reuse : bool) (vals : list Value) :
  List.NoDup (map value_id vals) ->
  exists lo, plan_inv reuse lo (sort_by_start vals) (plan_values reuse vals).
Proof.
  intros Hnd. unfold plan_values.
  apply (fold_place_preserves reuse (sort_by_start vals) [] empty_pattern 0).
  - apply plan_inv_empty.
  - apply sort_by_start_sorted.
  - intros; lia.
  - simpl. eapply Permutation_NoDup; [|exact Hnd].
    apply Permutation_map, Permutation_sym, sort_by_start_perm.
Qed.

(** C2. In the plan of values with distinct names, two values whose live
    intervals overlap are assigned different slots, and the two slots are
    disjoint parts of the arena. With memory reuse disabled this holds of
    any two values: every value has a slot of its own. *)
Theorem memory_plan_slots_disjoint
        (so : SessionOptions) (vals : list Value) (v1 v2 : Value) :
  List.NoDup (map value_id vals) ->
  In v1 vals -> In v2 vals -> v1 <> v2 ->
  overlap v1 v2 \/ enable_mem_reuse so = false ->
  exists i1 i2 s1 s2,
    assignment (memory_plan so vals) !! value_id v1 = Some i1 /\
    assignment (memory_plan so vals) !! value_id v2 = Some i2 /\
    slots (memory_plan so vals) !! i1 = Some s1 /\
    slots (memory_plan so vals) !! i2 = Some s2 /\
    i1 <> i2 /\
    (slot_offset s1 + slot_size s1 <= slot_offset s2 \/
     slot_offset s2 + slot_size s2 <= slot_offset s1).
Proof.
  intros Hnd H1 H2 Hne Hov. unfold memory_plan.
  destruct (plan_values_inv (enable_mem_reuse so) vals Hnd) as [lo Hinv].
  pose proof (NoDup_map_neq value_id vals v1 v2 Hnd H1 H2 Hne) as Hid.
  assert (H1' : In v1 (sort_by_start vals))
    by (eapply Permutation_in; [apply Permutation_sym, sort_by_start_perm | exact H1]).
  assert (H2' : In v2 (sort_by_start vals))
    by (eapply Permutation_in; [apply Permutation_sym, sort_by_start_perm | exact H2]).
  destruct (inv_assigned _ _ _ _ Hinv v1 H1') as [i1 [A1 L1]].
  destruct (inv_assigned _ _ _ _ Hinv v2 H2') as [i2 [A2 L2]].
  destruct (lookup_lt_is_Some_2 _ _ L1) as [s1 S1].
  destruct (lookup_lt_is_Some_2 _ _ L2) as [s2 S2].
  exists i1, i2, s1, s2.
  pose proof (inv_apart _ _ _ _ Hinv v1 v2 i1 i2 H1' H2' Hid Hov A1 A2) as Hi.
  repeat split; try assumption.
  destruct (Nat.lt_total i1 i2) as [Hlt | [Heq | Hgt]]; [|contradiction|].
  - left. exact (inv_offsets _ _ _ _ Hinv i1 i2 s1 s2 Hlt S1 S2).
  - right. exact (inv_offsets _ _ _ _ Hinv i2 i1 s2 s1 Hgt S2 S1).
Qed.

(** Every value fits in the slot it was assigned. *)
Lemma memory_plan_fits (so : SessionOptions) (vals : list Value) (v : Value) :
  List.NoDup (map value_id vals) -> In v vals ->
  exists i sl,
    assignment (memory_plan so vals) !! value_id v = Some i /\
    slots (memory_plan so vals) !! i = Some sl /\
    value_size v <= slot_size sl /\
    slot_offset sl + slot_size sl <= arena_size (memory_plan so vals).
Proof.
  intros Hnd Hv. unfold memory_plan.
  destruct (plan_values_inv (enable_mem_reuse so) vals Hnd) as [lo Hinv].
  assert (Hv' : In v (sort_by_start vals))
    by (eapply Permutation_in; [apply Permutation_sym, sort_by_start_perm | exact Hv]).
  destruct (inv_assigned _ _ _ _ Hinv v Hv') as [i [A L]].
  destruct (lookup_lt_is_Some_2 _ _ L) as [sl S1].
  exists i, sl. repeat split; try assumption.
  - exact (inv_fits _ _ _ _ Hinv v i sl Hv' A S1).
  - exact (inv_arena _ _ _ _ Hinv i sl S1).
Qed.

(** The chain with reuse disabled: three slots, one per value. *)
Example chain_without_reuse :
  let mp := memory_plan (options_with_reuse false) chain_values in
  length (slots mp) = 3 /\
  pattern_entry mp 0 = Some (0, 16) /\
  pattern_entry mp 1 = Some (16, 16) /\
  pattern_entry mp 2 = Some (32, 16).
Proof. vm_compute. repeat split. Qed.

(** The chain with reuse enabled: the slot of A's output is free again when
    C's output is written, and C reuses it. *)
Example chain_with_reuse :
  let mp := memory_plan (options_with_reuse true) chain_values in
  length (slots mp) = 2 /\
  pattern_entry mp 0 = Some (0, 16) /\
  pattern_entry mp 1 = Some (16, 16) /\
  pattern_entry mp 2 = Some (0, 16).
Proof. vm_compute. repeat split. Qed.

(** The outputs of A and B in the chain overlap at position 1. *)
Lemma memory_plan_slots_disjoint_witness :
  exists i1 i2 s1 s2,
    assignment (memory_plan (options_with_reuse true) chain_values) !! 0 = Some i1 /\
    assignment (memory_plan (options_with_reuse true) chain_values) !! 1 = Some i2 /\
    slots (memory_plan (options_with_reuse true) chain_values) !! i1 = Some s1 /\
    slots (memory_plan (options_with_reuse true) chain_values) !! i2 = Some s2 /\
    i1 <> i2 /\
    (slot_offset s1 + slot_size s1 <= slot_offset s2 \/
     slot_offset s2 + slot_size s2 <= slot_offset s1).
Proof.
  apply (memory_plan_slots_disjoint (options_with_reuse true) chain_values
           {| value_id := 0; first_write := 0; last_read := 1; value_size := 16 |}
           {| value_id := 1; first_write := 1; last_read := 2; value_size := 16 |}).
  - simpl. repeat constructor; simpl; intuition lia.
  - simpl; auto.
  - simpl; auto.
  - discriminate.
  - left. unfold overlap; simpl; lia.
Defined.

(** ** Executor: calls into a provider without concurrent-invocation
    support are serialized *)

Lemma schedule_idle (mode : ExecutionMode) (pool : nat) (units : list ProviderId) (w : Worker) :
  In w (schedule mode pool units) -> running w = None.
Proof.
  destruct mode; simpl.
  - intros [<- | []]. reflexivity.
  - rewrite in_map_iff. intros [k [<- _]]. reflexivity.
Qed.

Lemma initial_state_idle (pool : nat) (calls : list (ExecutionMode * list ProviderId))
      (i : nat) (p : ProviderId) :
  ~ inside (initial_state pool calls) i p.
Proof.
  intros [w [Hw Hr]]. simpl in Hw.
  apply list_elem_of_lookup_2, list_elem_of_In in Hw.
  apply in_flat_map in Hw. destruct Hw as [c [_ Hc]].
  apply schedule_idle in Hc. congruence.
Qed.

Lemma lock_inv_initial (concurrent : ProviderId -> bool) (pool : nat)
      (calls : list (ExecutionMode * list ProviderId)) :
  lock_inv concurrent (initial_state pool calls).
Proof. intros i p Hin. destruct (initial_state_idle _ _ _ _ Hin). Qed.

Lemma lock_inv_step (concurrent : ProviderId -> bool) (st st' : ExecState) :
  lock_inv concurrent st -> exec_step concurrent st st' -> lock_inv concurrent st'.
Proof.
  intros Hinv Hstep.
  destruct Hstep as [st i p q Hw Hc | st i p q Hw Hc Hfree | st i p q Hw];
    intros i' p' [w [Hw' Hr]] Hc'; simpl in *;
    apply list_lookup_insert_Some in Hw';
    destruct Hw' as [[-> [<- _]] | [Hne Hw']]; simpl in Hr.
  - inversion Hr; subst. congruence.
  - apply Hinv; [exists w; auto | exact Hc'].
  - inversion Hr; subst. apply lookup_insert_eq.
  - assert (Hl : locks st !! p' = Some i') by (apply Hinv; [exists w; auto | exact Hc']).
    rewrite lookup_insert_ne; [exact Hl | congruence].
  - discriminate.
  - assert (Hl : locks st !! p' = Some i') by (apply Hinv; [exists w; auto | exact Hc']).
    destruct (concurrent p) eqn:Hp; [exact Hl|].
    rewrite lookup_delete_ne; [exact Hl|].
    intros <-.
    assert (Hl' : locks st !! p = Some i) by (apply Hinv; [eexists; eauto | exact Hp]).
    congruence.
Qed.

Lemma reachable_lock_inv (concurrent : ProviderId -> bool) (pool : nat)
      (calls : list (ExecutionMode * list ProviderId)) (st : ExecState) :
  reachable concurrent (initial_state pool calls) st -> lock_inv concurrent st.
Proof.
  induction 1 as [| st st' _ IH Hstep].
  - apply lock_inv_initial.
  - exact (lock_inv_step _ _ _ IH Hstep).
Qed.

(** A worker waits at the serialization point while another one is inside
    the provider: the call step is not enabled. *)
Lemma serialized_call_waits (concurrent : ProviderId -> bool) (st : ExecState)
      (i j : nat) (p : ProviderId) (q : list ProviderId) :
  lock_inv concurrent st ->
  concurrent p = false ->
  inside st j p ->
  workers st !! i = Some {| running := None; queue := p :: q |} ->
  locks st !! p <> None.
Proof. intros Hinv Hc Hj _ Hn. rewrite (Hinv j p Hj Hc) in Hn. discriminate. Qed.

(** A provider that supports concurrent invocation is entered without the
    lock: two workers may be inside it at once. *)
Example concurrent_provider_not_serialized :
  exists st,
    reachable (fun _ => true) (initial_state 2 sample_calls) st /\
    inside st 0 0 /\ inside st 1 0.
Proof.
  eexists. split.
  - eapply reachable_step; [eapply reachable_step; [apply reachable_start|]|].
    + apply (step_call_concurrent _ _ 0 0 [0]); reflexivity.
    + apply (step_call_concurrent _ _ 1 0 [0]); reflexivity.
  - split; eexists; split; reflexivity.
Qed.

(** C5. Every WebNN provider instance answers [false] to
    [ConcurrentRunSupported]. Whatever the strategy of the calls in flight
    (sequential or parallel) and however their workers interleave, at most
    one worker is inside the provider at any time, and that worker holds
    the provider's lock. *)
Theorem WebNN_calls_serialized
        (ep : WebNNExecutionProvider) (concurrent : ProviderId -> bool) (webnn : ProviderId)
        (pool : nat) (calls : list (ExecutionMode * list ProviderId))
        (st : ExecState) (i j : nat) :
  concurrent webnn = ConcurrentRunSupported ep ->
  reachable concurrent (initial_state pool calls) st ->
  inside st i webnn ->
  inside st j webnn ->
  ConcurrentRunSupported ep = false /\ i = j /\ locks st !! webnn = Some i.
Proof.
  intros Hflag Hreach Hi Hj.
  split; [reflexivity|].
  pose proof (reachable_lock_inv _ _ _ _ Hreach) as Hinv.
  pose proof (Hinv i webnn Hi Hflag) as Li.
  pose proof (Hinv j webnn Hj Hflag) as Lj.
  split; [congruence | exact Li].
Qed.

(** Worker 0, of the sequential call, is inside provider 0 after its first
    dispatch. *)
Lemma WebNN_calls_serialized_witness :
  let st0 := initial_state 2 sample_calls in
  let st1 := {| locks := <[0 := 0]> (locks st0);
                workers := <[0 := {| running := Some 0; queue := [0] |}]> (workers st0) |} in
  ConcurrentRunSupported sample_webnn = false /\ 0 = 0 /\ locks st1 !! 0 = Some 0.
Proof.
  cbv zeta.
  apply (WebNN_calls_serialized sample_webnn (fun _ => false) 0 2 sample_calls
           {| locks := <[0 := 0]> (locks (initial_state 2 sample_calls));
              workers := <[0 := {| running := Some 0; queue := [0] |}]>
                           (workers (initial_state 2 sample_calls)) |} 0 0).
  - reflexivity.
  - eapply reachable_step; [apply reachable_start|].
    apply (step_call_serialized _ _ 0 0 [0]); reflexivity.
  - eexists; split; reflexivity.
  - eexists; split; reflexivity.
Defined.

(** ** Printing of SessionOptions *)

Lemma string_app_cons (ch : ascii) (a b : string) :
  (String ch a ++ b = String ch (a ++ b))%string.
Proof. reflexivity. Qed.

Lemma string_app_assoc (a b c : string) : ((a ++ b) ++ c = a ++ (b ++ c))%string.
Proof.
  induction a as [|ch a IH]; [reflexivity|].
  rewrite !string_app_cons, IH. reflexivity.
Qed.

Lemma string_app_nil_r (a : string) : (a ++ "" = a)%string.
Proof.
  induction a as [|ch a IH]; [reflexivity|].
  rewrite string_app_cons, IH. reflexivity.
Qed.

Lemma string_app_inv_head (p a b : string) : (p ++ a = p ++ b)%string -> a = b.
Proof.
  induction p as [|ch p IH]; intros H; [exact H|].
  rewrite !string_app_cons in H. inversion H. apply IH. assumption.
Qed.

Lemma operator_ltlt_ExecutionOrder_app (os : ostream) (order : ExecutionOrder.t) :
  operator_ltlt_ExecutionOrder os order = (os ++ ExecutionOrder_text order)%string.
Proof.
  unfold ExecutionOrder_text, operator_ltlt_ExecutionOrder, put.
  destruct (order =? ExecutionOrder.DEFAULT)%Z; [reflexivity|].
  destruct (order =? ExecutionOrder.PRIORITY_BASED)%Z; [reflexivity|].
  destruct (order =? ExecutionOrder.MEMORY_EFFICIENT)%Z; reflexivity.
Qed.

(** The four texts start with four different letters, so whatever follows
    them they tell the named enumerators apart. *)
Lemma ExecutionOrder_text_separates (a b : ExecutionOrder.t) (t1 t2 : string) :
  In a ExecutionOrder_named ->
  (ExecutionOrder_text a ++ t1 = ExecutionOrder_text b ++ t2)%string ->
  a = b.
Proof.
  unfold ExecutionOrder_named, ExecutionOrder_text, operator_ltlt_ExecutionOrder, put.
  intros Ha H.
  destruct (Z.eqb_spec b ExecutionOrder.DEFAULT) as [-> | N0];
    [| destruct (Z.eqb_spec b ExecutionOrder.PRIORITY_BASED) as [-> | N1];
       [| destruct (Z.eqb_spec b ExecutionOrder.MEMORY_EFFICIENT) as [-> | N2]]];
    destruct Ha as [<- | [<- | [<- | []]]]; cbv in H; solve [reflexivity | discriminate H].
Qed.

(** X1. Distinct named enumerators are printed differently, and a named
    one is never printed as a value without a name is: when the operator
    writes the same for a named order and for another order, the two are
    equal. *)
Theorem operator_ltlt_ExecutionOrder_injective
        (os : ostream) (a b : ExecutionOrder.t) :
  In a ExecutionOrder_named ->
  operator_ltlt_ExecutionOrder os a = operator_ltlt_ExecutionOrder os b ->
  a = b.
Proof.
  intros Ha H. rewrite !operator_ltlt_ExecutionOrder_app in H.
  apply string_app_inv_head in H.
  apply (ExecutionOrder_text_separates a b EmptyString EmptyString Ha).
  rewrite !string_app_nil_r. exact H.
Qed.

Lemma operator_ltlt_ExecutionOrder_injective_witness :
  operator_ltlt_ExecutionOrder "order="%string ExecutionOrder.PRIORITY_BASED
  = "order=PRIORITY_BASED"%string /\
  ExecutionOrder.PRIORITY_BASED = 1%Z.
Proof.
  split; [reflexivity|].
  apply (operator_ltlt_ExecutionOrder_injective
           "order="%string ExecutionOrder.PRIORITY_BASED 1%Z).
  - right; left; reflexivity.
  - reflexivity.
Defined.

Ltac unfold_print :=
  unfold operator_ltlt_SessionOptions; cbv zeta;
  rewrite ?operator_ltlt_ExecutionOrder_app; unfold put.


(** X3. The text depends only on the members that are inserted: the free
    dimension overrides, the cancellation flag, the EPContext options, the
    callbacks and the rest of the selection policy leave it as it is. *)
Theorem operator_ltlt_SessionOptions_frame
        {TP CO : Type} (F : Inserters TP CO) (os : ostream)
        (s1 s2 : SessionOptions) (more : PrintedElsewhere TP CO) :
  same_printed_members s1 s2 ->
  operator_ltlt_SessionOptions F os s1 more = operator_ltlt_SessionOptions F os s2 more.
Proof.
  unfold same_printed_members, operator_ltlt_SessionOptions.
  intros (H1 & H2 & H3 & H4 & H5 & H6 & H7 & H8 & H9 & H10 & H11 & H12 & H13
          & H14 & H15 & H16 & H17).
  cbv zeta.
  rewrite H1, H2, H3, H4, H5, H6, H7, H8, H9, H10, H11, H12, H13, H14, H15, H16, H17.
  reflexivity.
Qed.

(** Two default-constructed options with different flag objects print the
    same text. *)
Lemma operator_ltlt_SessionOptions_frame_witness :
  load_cancellation_flag (SessionOptions_init false 1%positive)
  <> load_cancellation_flag (SessionOptions_init false 2%positive) /\
  operator_ltlt_SessionOptions sample_inserters EmptyString
    (SessionOptions_init false 1%positive) sample_elsewhere
  = operator_ltlt_SessionOptions sample_inserters EmptyString
      (SessionOptions_init false 2%positive) sample_elsewhere.
Proof.
  split; [discriminate|].
  apply (operator_ltlt_SessionOptions_frame sample_inserters EmptyString
           (SessionOptions_init false 1%positive) (SessionOptions_init false 2%positive)
           sample_elsewhere).
  unfold same_printed_members. simpl. repeat split; reflexivity.
Defined.

(** X4. The text tells the named execution orders apart: two options in the
    same execution mode, the first with a named order, that print the same
    text have the same order, whatever their other members are. *)
Theorem operator_ltlt_SessionOptions_tells_orders
        {TP CO : Type} (F : Inserters TP CO) (os : ostream)
        (s1 s2 : SessionOptions) (more1 more2 : PrintedElsewhere TP CO) :
  execution_mode s1 = execution_mode s2 ->
  In (execution_order s1) ExecutionOrder_named ->
  operator_ltlt_SessionOptions F os s1 more1 = operator_ltlt_SessionOptions F os s2 more2 ->
  execution_order s1 = execution_order s2.
Proof.
  intros Hm Ha. unfold_print. rewrite !string_app_assoc, Hm. intros H.
  do 5 apply string_app_inv_head in H.
  exact (ExecutionOrder_text_separates _ _ _ _ Ha H).
Qed.

Lemma operator_ltlt_SessionOptions_tells_orders_witness :
  execution_order (SessionOptions_init false 1%positive)
  = execution_order (SessionOptions_init false 2%positive).
Proof.
  apply (operator_ltlt_SessionOptions_tells_orders sample_inserters EmptyString
           (SessionOptions_init false 1%positive) (SessionOptions_init false 2%positive)
           sample_elsewhere sample_elsewhere).
  - reflexivity.
  - left; reflexivity.
  - reflexivity.
Defined.

(** The default options on a stream in its initial formatting state, with
    the stand-ins of [sample_inserters]. *)
Example operator_ltlt_SessionOptions_default :
  operator_ltlt_SessionOptions sample_inserters EmptyString
    (SessionOptions_init false 1%positive) sample_elsewhere
  = ("Session Options {  execution_mode:0 execution_order:DEFAULT enable_profiling:0"
     ++ " optimized_model_filepath: enable_mem_pattern:1 enable_mem_reuse:1"
     ++ " enable_cpu_mem_arena:1 profile_file_prefix:onnxruntime_profile_ session_logid:"
     ++ " session_log_severity_level:- session_log_verbosity_level:+"
     ++ " max_num_graph_transformation_steps:u graph_optimization_level:+"
     ++ " intra_op_param:t inter_op_param:t use_per_session_threads:1"
     ++ " thread_pool_allow_spinning:1 use_deterministic_compute:0"
     ++ " ep_selection_policy:p config_options: { c } }")%string.
Proof. vm_compute. reflexivity. Qed.

(** ** More on the cancellation flag *)

Lemma set_set_same_flag (h : heap) (s1 s2 : SessionOptions) (v1 v2 : bool) :
  load_cancellation_flag s1 = load_cancellation_flag s2 ->
  SetLoadCancellationFlag s2 v2 (SetLoadCancellationFlag s1 v1 h)
  = SetLoadCancellationFlag s2 v2 h.
Proof.
  intros Heq. unfold SetLoadCancellationFlag. rewrite Heq.
  apply map_eq. intros k.
  destruct (decide (k = load_cancellation_flag s2)) as [-> | Hne].
  - rewrite !lookup_alter_eq. destruct (h !! load_cancellation_flag s2); reflexivity.
  - rewrite !lookup_alter_ne by congruence. reflexivity.
Qed.

(** X5. The last write wins: after two sets through handles of one session,
    every handle reads the second value, and the store is as if only the
    second set had been made. *)
Theorem SetLoadCancellationFlag_last_write_wins
        (h : heap) (s s1 s2 s3 : SessionOptions) (v1 v2 : bool) :
  flag_live h s ->
  derived s s1 -> derived s s2 -> derived s s3 ->
  IsLoadCancellationFlagSet s3
    (SetLoadCancellationFlag s2 v2 (SetLoadCancellationFlag s1 v1 h)) = Some v2 /\
  SetLoadCancellationFlag s2 v2 (SetLoadCancellationFlag s1 v1 h)
  = SetLoadCancellationFlag s2 v2 h.
Proof.
  intros Hlive H1 H2 H3. apply derived_shares in H1, H2, H3.
  assert (Hset : SetLoadCancellationFlag s2 v2 (SetLoadCancellationFlag s1 v1 h)
                 = SetLoadCancellationFlag s2 v2 h)
    by (apply set_set_same_flag; congruence).
  split; [|exact Hset].
  rewrite Hset. apply set_then_read_same_flag; [congruence|].
  rewrite H2. exact Hlive.
Qed.

Lemma SetLoadCancellationFlag_last_write_wins_witness :
  let h := fst (SessionOptions_new false ∅) in
  let s := snd (SessionOptions_new false ∅) in
  IsLoadCancellationFlagSet s
    (SetLoadCancellationFlag s false (SetLoadCancellationFlag s true h)) = Some false.
Proof.
  cbv zeta.
  apply (SetLoadCancellationFlag_last_write_wins
           (fst (SessionOptions_new false ∅)) (snd (SessionOptions_new false ∅))
           (snd (SessionOptions_new false ∅)) (snd (SessionOptions_new false ∅))
           (snd (SessionOptions_new false ∅)) true false);
    solve [ eexists; apply make_shared_lookup | apply derived_self ].
Defined.

(** X6. The flag of newly constructed options is an object of its own: the
    construction and a set through the new options leave the flag of every
    live session as it was, and a set through a live session leaves the new
    flag unset. *)
Theorem SessionOptions_new_flag_independent
        (wasm_pthreads : bool) (h : heap) (s : SessionOptions) (v : bool) :
  flag_live h s ->
  let h2 := fst (SessionOptions_new wasm_pthreads h) in
  let s2 := snd (SessionOptions_new wasm_pthreads h) in
  load_cancellation_flag s2 <> load_cancellation_flag s /\
  IsLoadCancellationFlagSet s h2 = IsLoadCancellationFlagSet s h /\
  IsLoadCancellationFlagSet s (SetLoadCancellationFlag s2 v h2)
  = IsLoadCancellationFlagSet s h /\
  IsLoadCancellationFlagSet s2 (SetLoadCancellationFlag s v h2) = Some false.
Proof.
  intros Hlive.
  pose proof (SessionOptions_new_independent wasm_pthreads h s Hlive) as Hne.
  cbv zeta.
  assert (Hunset : IsLoadCancellationFlagSet
                     (snd (SessionOptions_new wasm_pthreads h))
                     (fst (SessionOptions_new wasm_pthreads h)) = Some false).
  { unfold IsLoadCancellationFlagSet, SessionOptions_new.
    pose proof (make_shared_lookup false h) as Hl.
    destruct (make_shared false h) as [h1 l]. simpl in *. rewrite Hl. reflexivity. }
  assert (Hsame : IsLoadCancellationFlagSet s (fst (SessionOptions_new wasm_pthreads h))
                  = IsLoadCancellationFlagSet s h).
  { unfold IsLoadCancellationFlagSet, SessionOptions_new in *.
    destruct (make_shared false h) as [h1 l] eqn:E. simpl in *.
    unfold make_shared in E. inversion E; subst.
    rewrite lookup_insert_ne by exact Hne. reflexivity. }
  split; [exact Hne|]. split; [exact Hsame|]. split.
  - rewrite set_other_flag by exact Hne. exact Hsame.
  - rewrite set_other_flag by congruence. exact Hunset.
Qed.

Lemma SessionOptions_new_flag_independent_witness :
  let h := fst (SessionOptions_new false ∅) in
  let s := snd (SessionOptions_new false ∅) in
  let h2 := fst (SessionOptions_new false h) in
  let s2 := snd (SessionOptions_new false h) in
  IsLoadCancellationFlagSet s (SetLoadCancellationFlag s2 true h2)
  = IsLoadCancellationFlagSet s h.
Proof.
  cbv zeta.
  apply (SessionOptions_new_flag_independent false
           (fst (SessionOptions_new false ∅)) (snd (SessionOptions_new false ∅)) true).
  eexists; apply make_shared_lookup.
Defined.

(** X7. Construction followed by destruction leaves the store as it was: the
    flag object is freed with its only owner, and reading through the
    destroyed options finds no object. *)
Theorem SessionOptions_new_delete_balance (wasm_pthreads : bool) (h : heap) :
  let h' := fst (SessionOptions_new wasm_pthreads h) in
  let s := snd (SessionOptions_new wasm_pthreads h) in
  SessionOptions_delete s h' = h /\
  IsLoadCancellationFlagSet s (SessionOptions_delete s h') = None.
Proof.
  cbv zeta. unfold SessionOptions_new.
  pose proof (make_shared_fresh false h) as Hf.
  pose proof (make_shared_lookup false h) as Hl.
  destruct (make_shared false h) as [h1 l] eqn:E. simpl in *.
  assert (Hdel : SessionOptions_delete (SessionOptions_init wasm_pthreads l) h1 = h).
  { unfold SessionOptions_delete. simpl. rewrite Hl. simpl.
    unfold make_shared in E. inversion E; subst.
    apply delete_insert_id. exact Hf. }
  split; [exact Hdel|].
  rewrite Hdel. unfold IsLoadCancellationFlagSet. simpl. rewrite Hf. reflexivity.
Qed.

(** X8. A copy followed by the destruction of one of the two handles leaves the
    store as it was before the copy, and the flag stays readable with its
    value through the handle that is left: the object lives as long as one
    owner does. *)
Theorem SessionOptions_copy_delete_balance
        (h : heap) (s : SessionOptions) (c : atomic_bool_cell) :
  h !! load_cancellation_flag s = Some c ->
  0 < use_count c ->
  let h1 := fst (SessionOptions_copy s h) in
  let s1 := snd (SessionOptions_copy s h) in
  SessionOptions_delete s h1 = h /\
  SessionOptions_delete s1 h1 = h /\
  IsLoadCancellationFlagSet s1 (SessionOptions_delete s h1) = Some (flag_value c) /\
  IsLoadCancellationFlagSet s (SessionOptions_delete s1 h1) = Some (flag_value c).
Proof.
  intros Hc Hpos. cbv zeta. simpl.
  assert (Hdel : SessionOptions_delete s
                   (alter (fun c0 => {| flag_value := flag_value c0;
                                        use_count := S (use_count c0) |})
                          (load_cancellation_flag s) h) = h).
  { unfold SessionOptions_delete. rewrite lookup_alter_eq, Hc. simpl.
    destruct (use_count c) as [|n] eqn:E; [lia|].
    apply map_eq. intros k.
    destruct (decide (k = load_cancellation_flag s)) as [-> | Hne].
    - rewrite lookup_insert_eq, Hc. destruct c as [fv uc]. simpl in *. subst uc. reflexivity.
    - rewrite lookup_insert_ne by congruence.
      rewrite lookup_alter_ne by congruence. reflexivity. }
  rewrite Hdel. unfold IsLoadCancellationFlagSet. rewrite Hc. repeat split.
Qed.

Lemma SessionOptions_copy_delete_balance_witness :
  let h := fst (SessionOptions_new false ∅) in
  let s := snd (SessionOptions_new false ∅) in
  SessionOptions_delete s (fst (SessionOptions_copy s h)) = h.
Proof.
  cbv zeta.
  apply (SessionOptions_copy_delete_balance
           (fst (SessionOptions_new false ∅)) (snd (SessionOptions_new false ∅))
           {| flag_value := false; use_count := 1 |}).
  - apply make_shared_lookup.
  - simpl. lia.
Defined.

(** X9. Setting the flag and copying the options commute: the set changes no
    use count and the copy changes no flag. *)
Theorem SetLoadCancellationFlag_copy_commute
        (h : heap) (s s' : SessionOptions) (v : bool) :
  fst (SessionOptions_copy s (SetLoadCancellationFlag s' v h))
  = SetLoadCancellationFlag s' v (fst (SessionOptions_copy s h)) /\
  snd (SessionOptions_copy s (SetLoadCancellationFlag s' v h)) = s /\
  forall l, use_count <$> SetLoadCancellationFlag s' v h !! l = use_count <$> h !! l.
Proof.
  split; [|split; [reflexivity|]].
  - unfold SessionOptions_copy, SetLoadCancellationFlag. simpl.
    apply map_eq. intros k.
    destruct (decide (load_cancellation_flag s = load_cancellation_flag s')) as [E | Hne].
    + rewrite <- E.
      destruct (decide (k = load_cancellation_flag s)) as [-> | Hk].
      * rewrite !lookup_alter_eq. destruct (h !! load_cancellation_flag s); reflexivity.
      * rewrite !lookup_alter_ne by congruence. reflexivity.
    + destruct (decide (k = load_cancellation_flag s)) as [-> | Hk].
      * rewrite lookup_alter_eq, !lookup_alter_ne by congruence.
        rewrite lookup_alter_eq. reflexivity.
      * rewrite lookup_alter_ne by congruence.
        destruct (decide (k = load_cancellation_flag s')) as [-> | Hk'].
        -- rewrite !lookup_alter_eq. rewrite lookup_alter_ne by congruence. reflexivity.
        -- rewrite !lookup_alter_ne by congruence. reflexivity.
  - intros l. unfold SetLoadCancellationFlag.
    destruct (decide (l = load_cancellation_flag s')) as [-> | Hne].
    + rewrite lookup_alter_eq. destruct (h !! load_cancellation_flag s'); reflexivity.
    + rewrite lookup_alter_ne by congruence. reflexivity.
Qed.
